(** * QNNPACK quantization utilities (qnnpack_utils.h)

    A shallow embedding of the numeric helpers of
    [aten/src/ATen/native/quantized/cpu/qnnpack_utils.h]:
    [Round], [QuantizeUint8], [activationLimits],
    [generate_requantization_scales] and
    [make_zero_points_and_scales_tensor].

    Conventions of the embedding.
    - A C++ [float] is an IEEE-754 binary32 value: a [spec_float] operated
      on with precision 24 and maximal exponent 128, in the default
      floating-point environment (round to nearest, ties to even).
    - A fixed-width integer is a [Z]; signed addition is written with its
      two's-complement wrap-around (what the compiled code computes; the
      language leaves signed overflow undefined), narrowing to [uint8_t]
      is reduction modulo 256.
    - A call has one of three outcomes, see [result]. *)

From Stdlib Require Import ZArith Lia Bool.
From Stdlib Require Import Floats.SpecFloat.
From stdpp Require Import base list.

Local Open Scope Z_scope.

(** ** Outcomes *)

(** [Ok a]: the call returns [a].  [Throw]: a C++ exception leaves the call
    (the tensor library's checked accessors).  [Undefined]: the call runs
    into undefined behaviour, so that no outcome is guaranteed. *)
Inductive result (A : Type) : Type :=
| Ok (a : A)
| Throw
| Undefined.
Arguments Ok {A} a.
Arguments Throw {A}.
Arguments Undefined {A}.

#[global] Instance result_ret : MRet result := fun A a => Ok a.
#[global] Instance result_bind : MBind result := fun A B f m =>
  match m with
  | Ok a => f a
  | Throw => Throw
  | Undefined => Undefined
  end.

(** ** Fixed-width integers *)

Module Int.

Definition int32_min : Z := - 2 ^ 31.
Definition int32_max : Z := 2 ^ 31 - 1.

Definition in_int32 (x : Z) : bool := (int32_min <=? x) && (x <=? int32_max).

(** Two's-complement reduction of an integer to [w] bits, signed. *)
Definition wrap_signed (w : Z) (x : Z) : Z :=
  (x + 2 ^ (w - 1)) mod 2 ^ w - 2 ^ (w - 1).

Definition add_int32 (a b : Z) : Z := wrap_signed 32 (a + b).
Definition add_int64 (a b : Z) : Z := wrap_signed 64 (a + b).

(** [static_cast<uint8_t>(x)] and [(uint8_t)x] on an integer. *)
Definition static_cast_uint8 (x : Z) : Z := x mod 256.

(** [std::numeric_limits<uint8_t>::min()] and [::max()]. *)
Definition uint8_min : Z := 0.
Definition uint8_max : Z := 255.

End Int.

(** ** binary32 *)

Module F32.

Definition prec : Z := 24.
Definition emax : Z := 128.

Definition float : Type := spec_float.

Definition fmul : float -> float -> float := SFmul prec emax.
Definition fdiv : float -> float -> float := SFdiv prec emax.

(** The binary32 value nearest to the integer [n]. *)
Definition of_Z (n : Z) : float := binary_normalize prec emax n 0 false.

(** [0 < x], on floats. *)
Definition positive (x : float) : Prop := SFltb (S754_zero false) x = true.

(** The integer nearest to [m / d], ties to the even one
    (for [0 <= m] and [0 < d]). *)
Definition rne_div (m d : Z) : Z :=
  let q := m / d in
  match 2 * (m mod d) ?= d with
  | Lt => q
  | Gt => q + 1
  | Eq => if Z.even q then q else q + 1
  end.

(** [std::nearbyint] on a [float], in the default rounding mode: the
    integral float nearest to [x], ties to even, the sign kept (so that a
    negative [x] above -1/2 gives -0).  A finite float with a
    non-negative exponent is integral already. *)
Definition nearbyint (x : float) : float :=
  match x with
  | S754_finite s m e =>
      if 0 <=? e then x
      else binary_normalize prec emax
             (cond_Zopp s (rne_div (Zpos m) (2 ^ (- e)))) 0 s
  | _ => x
  end.

(** The integer part of a finite float (truncation toward zero). *)
Definition trunc (x : float) : option Z :=
  match x with
  | S754_zero _ => Some 0
  | S754_finite s m e =>
      Some (cond_Zopp s (if 0 <=? e then Zpos m * 2 ^ e
                         else Zpos m / 2 ^ (- e)))
  | S754_infinity _ | S754_nan => None
  end.

(** [static_cast<int32_t>(x)] on a [float]: the integer part when it is
    representable in [int32_t]; undefined behaviour otherwise (also for
    infinities and NaN). *)
Definition static_cast_int32 (x : float) : result Z :=
  match trunc x with
  | Some n => if Int.in_int32 n then Ok n else Undefined
  | None => Undefined
  end.

Definition is_zero (x : float) : bool :=
  match x with S754_zero _ => true | _ => false end.
Definition is_nan (x : float) : bool :=
  match x with S754_nan => true | _ => false end.

(** Literals used below, as (significand, exponent). *)
Definition f0_0 : float := S754_zero false.
Definition f0_1 : float := S754_finite false 13421773 (-27).
Definition f0_2 : float := S754_finite false 13421773 (-26).
Definition f0_25 : float := S754_finite false 8388608 (-25).
Definition f0_5 : float := S754_finite false 8388608 (-24).
Definition f1_0 : float := S754_finite false 8388608 (-23).
Definition f1_5 : float := S754_finite false 12582912 (-23).
Definition f2_0 : float := S754_finite false 8388608 (-22).
Definition f2_5 : float := S754_finite false 10485760 (-22).
Definition f3_0 : float := S754_finite false 12582912 (-22).
Definition f4_0 : float := S754_finite false 8388608 (-21).
(** The largest [float] below [2 ^ 31]: 2147483520. *)
Definition f2147483520 : float := S754_finite false 16777215 7.
(** [2 ^ 32]. *)
Definition f4294967296 : float := S754_finite false 8388608 9.

End F32.

Import Int F32.

(** ** The quantization primitives *)

(** [template <class T> inline T Round(const T x)], at [T = float]. *)
Definition Round (x : float) : float := nearbyint x.

(** [inline uint8_t QuantizeUint8(float scale, int32_t zero_point, float value)] *)
Definition QuantizeUint8 (scale : float) (zero_point : Z) (value : float)
  : result Z :=
  let qmin := uint8_min in
  let qmax := uint8_max in
  c ← static_cast_int32 (Round (fdiv value scale));
  let r := add_int32 zero_point c in
  let r := Z.max r qmin in
  let r := Z.min r qmax in
  Ok (static_cast_uint8 r).

(** [enum class Activation : uint8_t { NONE = 0, RELU = 1 }]: a value of
    the enumeration is a value of its underlying type, the two enumerators
    being named. *)
Definition Activation : Type := Z.
Definition NONE : Activation := 0.
Definition RELU : Activation := 1.

(** [activationLimits]: the [default:] label is [__builtin_unreachable()]
    (or [__assume(0)]), undefined behaviour when control reaches it. *)
Definition activationLimits (scale : float) (zero_point : Z) (Ac : Activation)
  : result (Z * Z) :=
  if Ac =? NONE then Ok (uint8_min, uint8_max)
  else if Ac =? RELU then
    q ← QuantizeUint8 scale zero_point f0_0;
    Ok (q, uint8_max)
  else Undefined.

(** ** Loops and arrays *)

(** [for (int i = start; i < start + count; ++i) body], the array being
    threaded through the iterations; an iteration that does not return
    ends the loop with its outcome.  (The channel count is taken below the
    range of [int].) *)
Fixpoint for_loop {S : Type} (start : nat) (count : nat)
    (body : nat -> S -> result S) (s : S) : result S :=
  match count with
  | O => Ok s
  | Datatypes.S c => s' ← body start s; for_loop (Datatypes.S start) c body s'
  end.

(** A read through a raw pointer, [data[i]]: outside the buffer it is
    undefined behaviour. *)
Definition raw_read {A : Type} (data : list A) (i : nat) : result A :=
  match data !! i with
  | Some x => Ok x
  | None => Undefined
  end.

(** Modelled from the spec: [t[i]] on a one-dimensional tensor, the
    read-only accessor of a per-channel parameter ([perChannelScale(i)],
    [perChannelZeroPoint(i)]).  It belongs to the tensor library, which
    raises an index error outside the tensor. *)
Definition tensor_index {A : Type} (t : list A) (i : nat) : result A :=
  match t !! i with
  | Some x => Ok x
  | None => Throw
  end.

(** Modelled from the spec: [.item<int32_t>()] on an integer element, the
    element read as an [int32_t].  The tensor library's conversion is
    checked and raises when the value does not fit. *)
Definition item_int32 (z : Z) : result Z :=
  if in_int32 z then Ok z else Throw.

(** Modelled from the spec: [.item<float>()] on an element that is a
    [float] (the data model's per-channel scale). *)
Definition item_float (x : float) : result float := Ok x.

(** Modelled from the spec: [at::native::empty_cpu({n}, ...)], the
    allocation of an output sequence of [n] elements, which are left unset
    until written; [mem i] stands for whatever the allocation holds at
    index [i]. *)
Definition empty_cpu {A : Type} (mem : nat -> A) (n : nat) : list A :=
  mem <$> seq 0 n.

(** ** Requantization scales *)

(** [generate_requantization_scales]: the tensor of weight scales is the
    list of its [numel()] elements. *)
Definition generate_requantization_scales
    (weight_scales : list float) (input_scale output_scale : float)
  : result (list float) :=
  let num_output_channels := length weight_scales in
  let weight_scales_data := weight_scales in
  let requant_scales := replicate num_output_channels f1_0 in
  for_loop 0 num_output_channels
    (fun i requant_scales =>
       w ← raw_read weight_scales_data i;
       Ok (<[i := fdiv (fmul w input_scale) output_scale]> requant_scales))
    requant_scales.

(** ** Weight zero points and scales *)

(** Modelled from the spec: the quantization scheme tag of a tensor.  The
    source names [at::kPerTensorAffine] and [at::kPerChannelAffine]; the
    enumeration they belong to is declared by the tensor library, which
    has further schemes. *)
Inductive QScheme : Type :=
| kPerTensorAffine
| kPerChannelAffine
| kPerTensorSymmetric
| kPerChannelSymmetric.

(** Modelled from the spec: the quantized weight tensor, as far as the
    accessors read it (data model: leading dimension, scheme, scalar scale
    and zero point, per-channel scales and zero points).  Scales are
    [float]s, zero points integers. *)
Record QTensor : Type := {
  size0 : nat;
  qscheme : QScheme;
  q_scale : float;
  q_zero_point : Z;
  q_per_channel_scales : list float;
  q_per_channel_zero_points : list Z
}.

Definition is_per_tensor (q : QScheme) : bool :=
  match q with kPerTensorAffine => true | _ => false end.
Definition is_per_channel (q : QScheme) : bool :=
  match q with kPerChannelAffine => true | _ => false end.

(** [make_zero_points_and_scales_tensor]; [zp_mem] and [sc_mem] are the
    contents of the two allocations before anything is written. *)
Definition make_zero_points_and_scales_tensor
    (zp_mem : nat -> Z) (sc_mem : nat -> float) (weight_contig : QTensor)
  : result (list Z * list float) :=
  let num_output_channels := size0 weight_contig in
  let qtype := qscheme weight_contig in
  let weight_zp := empty_cpu zp_mem num_output_channels in
  weight_zp ←
    (if is_per_tensor qtype then
       for_loop 0 num_output_channels
         (fun i weight_zp_data =>
            Ok (<[i := static_cast_uint8
                         (add_int64 (q_zero_point weight_contig) 128)]>
                  weight_zp_data))
         weight_zp
     else if is_per_channel qtype then
       for_loop 0 num_output_channels
         (fun i weight_zp_data =>
            e ← tensor_index (q_per_channel_zero_points weight_contig) i;
            z ← item_int32 e;
            Ok (<[i := static_cast_uint8 (add_int32 z 128)]> weight_zp_data))
         weight_zp
     else Ok weight_zp);
  let weight_scales := empty_cpu sc_mem num_output_channels in
  weight_scales ←
    (if is_per_tensor qtype then
       for_loop 0 num_output_channels
         (fun i weight_scales_data =>
            Ok (<[i := q_scale weight_contig]> weight_scales_data))
         weight_scales
     else if is_per_channel qtype then
       for_loop 0 num_output_channels
         (fun i weight_scales_data =>
            e ← tensor_index (q_per_channel_scales weight_contig) i;
            x ← item_float e;
            Ok (<[i := x]> weight_scales_data))
         weight_scales
     else Ok weight_scales);
  Ok (weight_zp, weight_scales).

(** ** The Android variant of Round *)

(** binary64, the C++ [double]. *)
Module F64.

Definition prec : Z := 53.
Definition emax : Z := 1024.

(** The conversion of a [float] to [double] (a promotion: it is exact). *)
Definition of_float (x : float) : spec_float :=
  match x with
  | S754_finite s m e => binary_round prec emax s m e
  | _ => x
  end.

(** [::nearbyint] on a [double], in the default rounding mode. *)
Definition nearbyint (x : spec_float) : spec_float :=
  match x with
  | S754_finite s m e =>
      if 0 <=? e then x
      else binary_normalize prec emax
             (cond_Zopp s (rne_div (Zpos m) (2 ^ (- e)))) 0 s
  | _ => x
  end.

End F64.

(** [inline double Round(const double x)], the overload of the branch
    [defined(__ANDROID__) && !defined(__NDK_MAJOR__)]. *)
Definition Round_double (x : spec_float) : spec_float := F64.nearbyint x.

(** [QuantizeUint8] as that branch compiles it.  The template
    [template <class T> inline float Round(const float x)] does not
    mention [T] in its parameter, so [Round(value / scale)] cannot deduce
    it and the call goes to the [double] overload, the quotient being
    promoted; the result converted to [int32_t] is then a [double]. *)
Definition QuantizeUint8_android (scale : float) (zero_point : Z)
    (value : float) : result Z :=
  let qmin := uint8_min in
  let qmax := uint8_max in
  c ← static_cast_int32 (Round_double (F64.of_float (fdiv value scale)));
  let r := add_int32 zero_point c in
  let r := Z.max r qmin in
  let r := Z.min r qmax in
  Ok (static_cast_uint8 r).

(** ** Classes of floats *)

Definition is_infinity (x : float) : bool :=
  match x with S754_infinity _ => true | _ => false end.

(** [x] is a number with a clear sign bit: [+0], a positive finite number
    or [+inf]. *)
Definition sign_clear (x : float) : bool :=
  match x with
  | S754_zero s | S754_infinity s | S754_finite s _ _ => negb s
  | S754_nan => false
  end.

(** The per-channel parameters of [w] can be read for its [size0]
    channels: both per-channel tensors have that many elements at least,
    and the zero points read are [int32_t] values. *)
Definition per_channel_readable (w : QTensor) : Prop :=
  (size0 w <= length (q_per_channel_zero_points w))%nat /\
  (size0 w <= length (q_per_channel_scales w))%nat /\
  Forall (fun z => in_int32 z = true)
         (take (size0 w) (q_per_channel_zero_points w)).

(** ** Sample weights *)

Definition weight_per_tensor (n : nat) (scale : float) (zero_point : Z)
  : QTensor :=
  {| size0 := n; qscheme := kPerTensorAffine; q_scale := scale;
     q_zero_point := zero_point; q_per_channel_scales := [];
     q_per_channel_zero_points := [] |}.

Definition weight_per_channel (scales : list float) (zero_points : list Z)
  : QTensor :=
  {| size0 := length scales; qscheme := kPerChannelAffine; q_scale := f0_0;
     q_zero_point := 0; q_per_channel_scales := scales;
     q_per_channel_zero_points := zero_points |}.

Definition weight_symmetric : QTensor :=
  {| size0 := 2; qscheme := kPerTensorSymmetric; q_scale := f0_5;
     q_zero_point := 10; q_per_channel_scales := [];
     q_per_channel_zero_points := [] |}.

(** Two allocations with visible contents: 7, 8, ... and 1.0, 1.0, ... *)
Definition zp_mem_sample : nat -> Z := fun i => 7 + Z.of_nat i.
Definition sc_mem_sample : nat -> float := fun _ => f1_0.

Example literals_ok :
  f0_1 = fdiv (of_Z 1) (of_Z 10) /\ f0_2 = fdiv (of_Z 2) (of_Z 10) /\
  f0_5 = fdiv (of_Z 1) (of_Z 2) /\ f1_5 = fdiv (of_Z 3) (of_Z 2) /\
  f0_25 = fdiv (of_Z 1) (of_Z 4) /\ f2_5 = fdiv (of_Z 5) (of_Z 2) /\
  f1_0 = of_Z 1 /\ f2_0 = of_Z 2 /\ f3_0 = of_Z 3 /\ f4_0 = of_Z 4.
Proof. vm_compute. repeat split. Qed.

Example Round_samples :
  Round f0_5 = S754_zero false /\ Round f1_5 = f2_0 /\ Round f2_5 = f2_0 /\
  Round (SFopp f0_5) = S754_zero true /\ Round (SFopp f1_5) = SFopp f2_0 /\
  Round f0_1 = S754_zero false /\ Round f2147483520 = f2147483520.
Proof. vm_compute. repeat split. Qed.

Example quantize_samples :
  QuantizeUint8 f1_0 0 f0_5 = Ok 0 /\
  QuantizeUint8 f1_0 0 f1_5 = Ok 2 /\
  QuantizeUint8 f1_0 0 f2_5 = Ok 2 /\
  QuantizeUint8 f1_0 10 f3_0 = Ok 13 /\
  QuantizeUint8 f0_1 50 f0_0 = Ok 50.
Proof. vm_compute. repeat split. Qed.

Example requant_sample :
  generate_requantization_scales [f1_0; f2_0] f0_5 f0_25 = Ok [f2_0; f4_0].
Proof. vm_compute. reflexivity. Qed.

Example per_tensor_sample :
  forall zp_mem sc_mem,
    make_zero_points_and_scales_tensor zp_mem sc_mem
      (weight_per_tensor 4 f0_5 10)
    = Ok ([138; 138; 138; 138], [f0_5; f0_5; f0_5; f0_5]).
Proof. intros. vm_compute. reflexivity. Qed.

Example per_channel_sample :
  forall zp_mem sc_mem,
    make_zero_points_and_scales_tensor zp_mem sc_mem
      (weight_per_channel [f0_1; f0_2] [5; -3])
    = Ok ([133; 125], [f0_1; f0_2]).
Proof. intros. vm_compute. reflexivity. Qed.

(** * Properties *)

(** ** Integer facts *)

Lemma wrap_signed_small w x :
  0 < w -> - 2 ^ (w - 1) <= x < 2 ^ (w - 1) -> wrap_signed w x = x.
Proof.
  intros Hw Hx. unfold wrap_signed.
  assert (2 ^ w = 2 * 2 ^ (w - 1)) as ->.
  { rewrite <- Z.pow_succ_r by lia. f_equal. lia. }
  rewrite Z.mod_small; lia.
Qed.

Lemma in_int32_spec x : in_int32 x = true <-> - 2 ^ 31 <= x < 2 ^ 31.
Proof. unfold in_int32, int32_min, int32_max. lia. Qed.

Lemma add_int32_small a b : in_int32 (a + b) = true -> add_int32 a b = a + b.
Proof.
  intros H%in_int32_spec. unfold add_int32.
  apply wrap_signed_small; [lia | exact H].
Qed.

(** Narrowing to 8 bits forgets a wider signed wrap-around. *)
Lemma static_cast_uint8_wrap w x :
  8 <= w -> static_cast_uint8 (wrap_signed w x) = x mod 256.
Proof.
  intros Hw. unfold static_cast_uint8, wrap_signed.
  assert (Hd : forall k, 8 <= k -> exists c, 2 ^ k = 256 * c).
  { intros k Hk. exists (2 ^ (k - 8)).
    change 256 with (2 ^ 8). rewrite <- Z.pow_add_r by lia. f_equal. lia. }
  destruct (Hd w Hw) as [c Hc].
  assert (2 ^ (w - 1) = 128 * c) as Hh.
  { assert (2 ^ w = 2 * 2 ^ (w - 1)).
    { rewrite <- Z.pow_succ_r by lia. f_equal. lia. }
    lia. }
  assert (0 < c) by (assert (0 < 2 ^ w) by (apply Z.pow_pos_nonneg; lia); lia).
  rewrite Hh, Hc.
  rewrite (Z.mod_eq (x + 128 * c) (256 * c)) by lia.
  replace (x + 128 * c - 256 * c * ((x + 128 * c) / (256 * c)) - 128 * c)
    with (x + (- (c * ((x + 128 * c) / (256 * c)))) * 256) by lia.
  apply Z.mod_add. lia.
Qed.

Lemma clamp_uint8 r :
  static_cast_uint8 (Z.min (Z.max r uint8_min) uint8_max)
  = Z.min (Z.max r 0) 255.
Proof.
  unfold static_cast_uint8, uint8_min, uint8_max. apply Z.mod_small. lia.
Qed.

(** ** Floating-point facts *)

Lemma rne_div_nearest m d :
  0 <= m -> 0 < d ->
  Z.abs (2 * (rne_div m d * d - m)) <= d /\
  (Z.abs (2 * (rne_div m d * d - m)) = d -> Z.even (rne_div m d) = true).
Proof.
  intros Hm Hd. unfold rne_div.
  pose proof (Z.div_mod m d ltac:(lia)) as Hdm.
  pose proof (Z.mod_pos_bound m d Hd) as Hr.
  set (q := m / d) in *. set (r := m mod d) in *.
  destruct (Z.compare_spec (2 * r) d) as [He | Hl | Hg].
  - destruct (Z.even q) eqn:Hev.
    + split; [nia | auto].
    + split; [nia |]. intros _.
      rewrite Z.even_add, Hev. reflexivity.
  - split; [nia | nia].
  - split; [nia | nia].
Qed.

Lemma rne_div_bounds m d :
  0 <= m -> 0 < d -> m / d <= rne_div m d <= m / d + 1.
Proof.
  intros Hm Hd. unfold rne_div.
  destruct (2 * (m mod d) ?= d); [destruct (Z.even (m / d)) | |]; lia.
Qed.

Lemma digits2_pos_size p : digits2_pos p = Pos.size p.
Proof. induction p; simpl; congruence. Qed.

Lemma digits2_pos_le p k :
  0 <= k -> Zpos p < 2 ^ k -> Zpos (digits2_pos p) <= k.
Proof.
  intros Hk Hp. rewrite digits2_pos_size.
  pose proof (Pos.size_le p) as Hs.
  destruct (Z_le_gt_dec (Zpos (Pos.size p)) k) as [|Hgt]; [assumption | exfalso].
  assert (2 ^ (k + 1) <= 2 ^ Zpos (Pos.size p)) by (apply Z.pow_le_mono_r; lia).
  assert (2 ^ Zpos (Pos.size p) <= 2 * Zpos p).
  { change (2 * Zpos p) with (Zpos p~0).
    rewrite <- Pos2Z.inj_pow. apply Pos2Z.pos_le_pos. exact Hs. }
  rewrite Z.pow_add_r in * by lia. lia.
Qed.

Lemma digits2_pos_gt p : Zpos p < 2 ^ Zpos (digits2_pos p).
Proof.
  rewrite digits2_pos_size.
  pose proof (Pos.size_gt p) as Hs.
  change 2 with (Zpos 2). rewrite <- Pos2Z.inj_pow. apply Pos2Z.pos_lt_pos, Hs.
Qed.

Lemma iter_xO_digits p k :
  Zpos (digits2_pos (Pos.iter xO p k)) = Zpos (digits2_pos p) + Zpos k.
Proof.
  induction k using Pos.peano_ind.
  - simpl. lia.
  - rewrite Pos.iter_succ. simpl digits2_pos. lia.
Qed.

Lemma iter_xO_value p k : Zpos (Pos.iter xO p k) = Zpos p * 2 ^ Zpos k.
Proof.
  induction k using Pos.peano_ind.
  - simpl. lia.
  - rewrite Pos.iter_succ, Pos2Z.inj_succ, Z.pow_succ_r by lia.
    rewrite Pos2Z.inj_xO, IHk. lia.
Qed.

(** A significand of exactly 24 bits with an exponent in range is kept as
    it is by the rounding step. *)
Lemma binary_round_aux_exact s m e :
  Zpos (digits2_pos m) = 24 -> -149 <= e <= 104 ->
  binary_round_aux prec emax s (Zpos m) e loc_Exact = S754_finite s m e.
Proof.
  intros Hd He.
  unfold binary_round_aux, shr_fexp, fexp, emin, prec, emax.
  cbn [Zdigits2 shr_record_of_loc]. rewrite Hd.
  replace (Z.max (24 + e - 24) (3 - 128 - 24) - e) with 0 by lia.
  cbn [shr shr_m loc_of_shr_record round_nearest_even Zdigits2].
  rewrite Hd.
  replace (Z.max (24 + e - 24) (3 - 128 - 24) - e) with 0 by lia.
  cbn [shr shr_m].
  destruct (e <=? 128 - 24) eqn:Hle; [reflexivity | lia].
Qed.

(** An integer below [2 ^ 24] is a binary32 value: normalising it only
    shifts its significand to 24 bits. *)
Lemma binary_round_int s p :
  Zpos p < 2 ^ 24 ->
  exists m e, binary_round prec emax s p 0 = S754_finite s m e /\
              -23 <= e <= 0 /\ Zpos m = Zpos p * 2 ^ (- e).
Proof.
  intros Hp.
  pose proof (digits2_pos_le p 24 ltac:(lia) Hp) as Hd.
  assert (0 < Zpos (digits2_pos p)) as Hd0 by lia.
  unfold binary_round, shl_align, fexp, emin.
  change prec with 24. change emax with 128.
  replace (Z.max (Zpos (digits2_pos p) + 0 - 24) (3 - 128 - 24) - 0)
    with (Zpos (digits2_pos p) - 24) by lia.
  replace (Z.max (Zpos (digits2_pos p) + 0 - 24) (3 - 128 - 24))
    with (Zpos (digits2_pos p) - 24) by lia.
  destruct (Zpos (digits2_pos p) - 24) as [|k|k] eqn:Hk.
  - exists p, 0. split; [| split; [lia | simpl; lia]].
    apply binary_round_aux_exact; lia.
  - lia.
  - exists (Pos.iter xO p k), (Zneg k). split; [| split].
    + apply binary_round_aux_exact; [| lia].
      rewrite iter_xO_digits. lia.
    + lia.
    + rewrite iter_xO_value. reflexivity.
Qed.

Lemma trunc_binary_normalize s n :
  0 <= n < 2 ^ 24 ->
  trunc (binary_normalize prec emax (cond_Zopp s n) 0 s)
  = Some (cond_Zopp s n).
Proof.
  intros Hn. destruct n as [|p|p]; [| | lia].
  - destruct s; reflexivity.
  - assert (binary_normalize prec emax (cond_Zopp s (Zpos p)) 0 s
            = binary_round prec emax s p 0) as -> by (destruct s; reflexivity).
    destruct (binary_round_int s p ltac:(lia)) as (m & e & -> & He & Hm).
    unfold trunc. f_equal. f_equal.
    destruct (0 <=? e) eqn:H0.
    + assert (e = 0) as -> by lia. rewrite Hm. simpl. lia.
    + rewrite Hm. apply Z.div_mul.
      assert (0 < 2 ^ (- e)) by (apply Z.pow_pos_nonneg; lia). lia.
Qed.

(** The integer that [Round] brings a non-integral binary32 value to. *)
Lemma trunc_Round_finite s m e :
  e < 0 -> Zpos m < 2 ^ 24 ->
  trunc (Round (S754_finite s m e))
  = Some (cond_Zopp s (rne_div (Zpos m) (2 ^ (- e)))).
Proof.
  intros He Hm. unfold Round, nearbyint.
  destruct (0 <=? e) eqn:H0; [lia |].
  apply trunc_binary_normalize.
  assert (0 < 2 ^ (- e)) as Hd by (apply Z.pow_pos_nonneg; lia).
  pose proof (rne_div_bounds (Zpos m) (2 ^ (- e)) ltac:(lia) Hd) as Hb.
  assert (0 <= Zpos m / 2 ^ (- e)) by (apply Z.div_pos; lia).
  assert (Zpos m / 2 ^ (- e) <= Zpos m / 2 ^ 1).
  { apply Z.div_le_compat_l; [lia |].
    split; [lia |]. apply Z.pow_le_mono_r; lia. }
  assert (Zpos m / 2 ^ 1 < 2 ^ 23).
  { apply Z.div_lt_upper_bound; [lia |]. change (2 ^ 1 * 2 ^ 23) with (2 ^ 24). lia. }
  change (2 ^ 24) with (2 * 2 ^ 23). lia.
Qed.

Lemma static_cast_int32_trunc x n :
  trunc x = Some n -> in_int32 n = true -> static_cast_int32 x = Ok n.
Proof. intros Ht Hn. unfold static_cast_int32. rewrite Ht, Hn. reflexivity. Qed.

(** [0.0 / scale] is a zero unless [scale] is itself zero or NaN. *)
Lemma fdiv_zero_l scale :
  is_zero scale = false -> is_nan scale = false ->
  exists s, fdiv f0_0 scale = S754_zero s.
Proof.
  destruct scale as [s | s | | s m e]; simpl; intros; try discriminate;
    eexists; reflexivity.
Qed.

Lemma positive_number scale :
  positive scale -> is_zero scale = false /\ is_nan scale = false.
Proof.
  destruct scale; unfold positive; cbv [SFltb SFcompare];
    intros H; split; solve [reflexivity | discriminate H].
Qed.

(** What [QuantizeUint8] returns once the rounded quotient is an [int32_t]. *)
Lemma QuantizeUint8_defined scale zero_point value n :
  trunc (Round (fdiv value scale)) = Some n -> in_int32 n = true ->
  QuantizeUint8 scale zero_point value
  = Ok (Z.min (Z.max (add_int32 zero_point n) 0) 255).
Proof.
  intros Ht Hn. unfold QuantizeUint8.
  rewrite (static_cast_int32_trunc _ _ Ht Hn). cbn [mbind result_bind].
  f_equal. apply clamp_uint8.
Qed.

Lemma QuantizeUint8_zero scale zero_point :
  is_zero scale = false -> is_nan scale = false -> in_int32 zero_point = true ->
  QuantizeUint8 scale zero_point f0_0 = Ok (Z.min (Z.max zero_point 0) 255).
Proof.
  intros Hz Hn Hzp. destruct (fdiv_zero_l scale Hz Hn) as [s Hs].
  rewrite (QuantizeUint8_defined scale zero_point f0_0 0).
  - rewrite add_int32_small; rewrite Z.add_0_r; [reflexivity | assumption].
  - rewrite Hs. reflexivity.
  - reflexivity.
Qed.

(** The result of [QuantizeUint8] is a byte. *)
Lemma QuantizeUint8_range scale zero_point value q :
  QuantizeUint8 scale zero_point value = Ok q -> 0 <= q <= 255.
Proof.
  unfold QuantizeUint8.
  destruct (static_cast_int32 (Round (fdiv value scale))) as [c | |];
    cbn [mbind result_bind]; intros H; try discriminate.
  injection H as <-. rewrite clamp_uint8. lia.
Qed.

(** ** QuantizeUint8 *)

(** C1 (amended): for every scale, zero point and value such that the
    rounded quotient [round(value/scale)] is an integer [n] representable
    in [int32_t] and [zero_point + n] does not overflow [int32_t],
    [QuantizeUint8] returns the clamp of [zero_point + n] into [0, 255]; in
    particular 255 when [zero_point + n] exceeds 255 and 0 when it is
    negative. *)
Theorem QuantizeUint8_saturates scale zero_point value n :
  trunc (Round (fdiv value scale)) = Some n ->
  in_int32 n = true ->
  in_int32 (zero_point + n) = true ->
  QuantizeUint8 scale zero_point value
    = Ok (Z.min (Z.max (zero_point + n) 0) 255) /\
  (255 < zero_point + n -> QuantizeUint8 scale zero_point value = Ok 255) /\
  (zero_point + n < 0 -> QuantizeUint8 scale zero_point value = Ok 0).
Proof.
  intros Ht Hn Hsum.
  rewrite (QuantizeUint8_defined _ _ _ _ Ht Hn), (add_int32_small _ _ Hsum).
  repeat split; intros; f_equal; lia.
Qed.

Lemma QuantizeUint8_saturates_witness :
  (trunc (Round (fdiv f3_0 f1_0)) = Some 3 /\ in_int32 3 = true /\
   in_int32 (254 + 3) = true) /\
  QuantizeUint8 f1_0 254 f3_0 = Ok 255.
Proof.
  split; [repeat split |].
  apply (QuantizeUint8_saturates f1_0 254 f3_0 3); [reflexivity .. | lia].
Defined.

(** C1, as stated, fails: with scale 1.0, zero point 255 and value
    2147483520.0 the sum [zero_point + round(value/scale)] exceeds 255 (it
    is 2147483775), yet the 32-bit addition wraps to a negative number and
    the result is 0, not 255. *)
Lemma QuantizeUint8_saturation_counterexample :
  positive f1_0 /\
  trunc (Round (fdiv f2147483520 f1_0)) = Some 2147483520 /\
  255 < 255 + 2147483520 /\
  QuantizeUint8 f1_0 255 f2147483520 = Ok 0 /\
  QuantizeUint8 f1_0 255 f2147483520 <> Ok 255.
Proof.
  repeat split; try reflexivity.
  vm_compute. discriminate.
Qed.

(** A quotient beyond [int32_t] (here 2 ^ 32) leaves the conversion, and
    with it the call, undefined. *)
Example QuantizeUint8_cast_undefined :
  QuantizeUint8 f1_0 0 f4294967296 = Undefined.
Proof. reflexivity. Qed.

(** C2: [QuantizeUint8] rounds [value / scale] to the nearest integer, ties
    to even, before it adds the zero point: when the quotient is the
    non-integral-grid float [(-1)^s * m * 2^e] ([e < 0]), the integer added
    is [(-1)^s * n] with [n] nearest to [m * 2^e] and even on a tie.
    Concretely quantize(1.0, 0, 0.5) = 0, quantize(1.0, 0, 1.5) = 2 and
    quantize(1.0, 10, 3.0) = 13; quantize(1.0, 0, 2.5) = 2 shows that ties
    go neither up nor away from zero. *)
Theorem QuantizeUint8_rounds_half_even :
  (forall scale zero_point value s m e,
     fdiv value scale = S754_finite s m e -> e < 0 -> Zpos m < 2 ^ 24 ->
     let n := rne_div (Zpos m) (2 ^ (- e)) in
     QuantizeUint8 scale zero_point value
       = Ok (Z.min (Z.max (add_int32 zero_point (cond_Zopp s n)) 0) 255) /\
     Z.abs (2 * (n * 2 ^ (- e) - Zpos m)) <= 2 ^ (- e) /\
     (Z.abs (2 * (n * 2 ^ (- e) - Zpos m)) = 2 ^ (- e) -> Z.even n = true)) /\
  QuantizeUint8 f1_0 0 f0_5 = Ok 0 /\
  QuantizeUint8 f1_0 0 f1_5 = Ok 2 /\
  QuantizeUint8 f1_0 10 f3_0 = Ok 13 /\
  QuantizeUint8 f1_0 0 f2_5 = Ok 2.
Proof.
  split; [| repeat split].
  intros scale zero_point value s m e Hq He Hm n.
  assert (0 < 2 ^ (- e)) as Hd by (apply Z.pow_pos_nonneg; lia).
  split; [| apply rne_div_nearest; lia].
  apply QuantizeUint8_defined.
  - rewrite Hq. apply trunc_Round_finite; assumption.
  - pose proof (rne_div_bounds (Zpos m) (2 ^ (- e)) ltac:(lia) Hd) as Hb.
    assert (0 <= Zpos m / 2 ^ (- e)) by (apply Z.div_pos; lia).
    assert (Zpos m / 2 ^ (- e) <= Zpos m) by (apply Z.div_le_upper_bound; nia).
    apply in_int32_spec. fold n in Hb.
    assert (0 <= n <= 2 ^ 24) by lia.
    change (2 ^ 24) with 16777216 in *. change (2 ^ 31) with 2147483648.
    destruct s; simpl; lia.
Qed.

Lemma QuantizeUint8_rounds_half_even_witness :
  (fdiv f1_5 f1_0 = S754_finite false 12582912 (-23) /\ -23 < 0 /\
   12582912 < 2 ^ 24) /\
  QuantizeUint8 f1_0 7 f1_5 = Ok 9.
Proof.
  split; [repeat split |].
  exact (proj1 (proj1 QuantizeUint8_rounds_half_even
                  f1_0 7 f1_5 false 12582912%positive (-23)
                  eq_refl eq_refl eq_refl)).
Defined.

(** ** activationLimits *)

(** C3: for every scale and zero point, [activationLimits] returns exactly
    (0, 255) for [NONE], and for [RELU] exactly the pair of
    [QuantizeUint8(scale, zero_point, 0.0)] and 255 (nothing when the
    quantizer returns nothing); concretely (50, 255) at scale 0.1, zero
    point 50. *)
Theorem activationLimits_cases :
  (forall scale zero_point,
     activationLimits scale zero_point NONE = Ok (0, 255) /\
     activationLimits scale zero_point RELU
       = (q ← QuantizeUint8 scale zero_point f0_0; Ok (q, 255))) /\
  activationLimits f0_1 50 NONE = Ok (0, 255) /\
  activationLimits f0_1 50 RELU = Ok (50, 255) /\
  QuantizeUint8 f0_1 50 f0_0 = Ok 50.
Proof. repeat split. Qed.

(** C7 (amended): for an activation kind outside {NONE, RELU} the call is
    undefined: the [default:] label is marked unreachable, it is not an
    assertion and raises nothing, so neither a failure nor a range is
    guaranteed. *)
Theorem activationLimits_default_undefined scale zero_point (Ac : Activation) :
  Ac <> NONE -> Ac <> RELU ->
  activationLimits scale zero_point Ac = Undefined.
Proof.
  intros H0 H1. unfold activationLimits.
  destruct (Z.eqb_spec Ac NONE); [contradiction |].
  destruct (Z.eqb_spec Ac RELU); [contradiction | reflexivity].
Qed.

Lemma activationLimits_default_undefined_witness :
  ((2 : Activation) <> NONE /\ (2 : Activation) <> RELU) /\
  activationLimits f0_1 50 2 = Undefined.
Proof.
  split; [split; discriminate |].
  apply (activationLimits_default_undefined f0_1 50 2); discriminate.
Defined.

(** C7, as stated, fails: the kind with underlying value 2 does not make
    the call raise. *)
Lemma activationLimits_default_counterexample :
  (2 : Activation) <> NONE /\ (2 : Activation) <> RELU /\
  activationLimits f0_1 50 2 <> Throw.
Proof. repeat split; discriminate. Qed.

(** C9: for [NONE] and [RELU] every range that [activationLimits] returns
    has min <= max (both are bytes); and a range is returned for [NONE],
    and for [RELU] whenever the scale is a number other than zero. *)
Theorem activationLimits_min_le_max scale zero_point (Ac : Activation) :
  Ac = NONE \/ Ac = RELU ->
  (forall lo hi,
     activationLimits scale zero_point Ac = Ok (lo, hi) ->
     0 <= lo /\ lo <= hi /\ hi <= 255) /\
  (Ac = NONE \/ (is_zero scale = false /\ is_nan scale = false) ->
   exists lo hi, activationLimits scale zero_point Ac = Ok (lo, hi)).
Proof.
  intros HAc. split.
  - intros lo hi. destruct HAc as [-> | ->]; cbn [activationLimits Z.eqb NONE RELU].
    + intros [= <- <-]. unfold uint8_min, uint8_max. lia.
    + destruct (QuantizeUint8 scale zero_point f0_0) as [q | |] eqn:Hq;
        cbn [mbind result_bind]; intros H; try discriminate.
      injection H as <- <-.
      apply QuantizeUint8_range in Hq. unfold uint8_max. lia.
  - intros [-> | (Hz & Hn)].
    + exists 0, 255. reflexivity.
    + destruct HAc as [-> | ->]; [exists 0, 255; reflexivity |].
      destruct (fdiv_zero_l scale Hz Hn) as [s Hs].
      exists (Z.min (Z.max (add_int32 zero_point 0) 0) 255), 255.
      cbn [activationLimits Z.eqb NONE RELU].
      rewrite (QuantizeUint8_defined scale zero_point f0_0 0);
        [reflexivity | rewrite Hs; reflexivity | reflexivity].
Qed.

Lemma activationLimits_min_le_max_witness :
  (RELU = NONE \/ RELU = RELU) /\
  (0 <= 50 /\ 50 <= 255 /\ 255 <= 255) /\
  exists lo hi, activationLimits f0_1 50 RELU = Ok (lo, hi).
Proof.
  pose proof (activationLimits_min_le_max f0_1 50 RELU (or_intror eq_refl))
    as [Hle Hex].
  split; [right; reflexivity |]. split.
  - apply (Hle 50 255). reflexivity.
  - apply Hex. right. repeat split.
Defined.

(** C10: for every scale > 0 and every [int32_t] zero point, the lower
    bound that [activationLimits] returns for [RELU] is
    clamp(zero_point, 0, 255), whatever the scale. *)
Theorem activationLimits_relu_lower_bound scale zero_point :
  positive scale -> in_int32 zero_point = true ->
  activationLimits scale zero_point RELU
  = Ok (Z.min (Z.max zero_point 0) 255, 255).
Proof.
  intros [Hz Hn]%positive_number Hzp.
  cbn [activationLimits Z.eqb NONE RELU].
  rewrite (QuantizeUint8_zero _ _ Hz Hn Hzp). reflexivity.
Qed.

Lemma activationLimits_relu_lower_bound_witness :
  (positive f0_1 /\ in_int32 300 = true) /\
  activationLimits f0_1 300 RELU = Ok (255, 255).
Proof.
  split; [split; reflexivity |].
  apply (activationLimits_relu_lower_bound f0_1 300); reflexivity.
Defined.

(** ** Loops that fill an array *)

Section FillLoop.
Context {A : Type}.
(** The value the body computes for index [i], and the body: it stores
    that value at index [i]. *)
Variable g : nat -> result A.
Variable body : nat -> list A -> result (list A).
Hypothesis body_stores :
  forall i a, body i a = (v ← g i; Ok (<[i := v]> a)).

(** When every index gives a value, the loop overwrites the part of the
    array it runs over with these values. *)
Lemma for_loop_fill (vs done rest : list A) :
  length rest = length vs ->
  (forall k v, vs !! k = Some v -> g (length done + k)%nat = Ok v) ->
  for_loop (length done) (length vs) body (done ++ rest) = Ok (done ++ vs).
Proof.
  revert done rest.
  induction vs as [| v vs IH]; intros done rest Hlen Hg.
  - destruct rest; [| discriminate]. reflexivity.
  - destruct rest as [| x rest]; [discriminate |].
    cbn [length for_loop]. rewrite body_stores.
    pose proof (Hg 0%nat v eq_refl) as H0.
    rewrite Nat.add_0_r in H0. rewrite H0. cbn [mbind result_bind].
    replace (<[length done := v]> (done ++ x :: rest))
      with ((done ++ [v]) ++ rest).
    2:{ rewrite <- (Nat.add_0_r (length done)) at 1.
        rewrite insert_app_r. cbn. rewrite <- app_assoc. reflexivity. }
    replace (S (length done)) with (length (done ++ [v]))
      by (rewrite length_app; cbn; lia).
    rewrite IH.
    + rewrite <- app_assoc. reflexivity.
    + cbn in Hlen. lia.
    + intros k v' Hk. rewrite length_app. cbn [length].
      replace (length done + 1 + k)%nat with (length done + S k)%nat by lia.
      apply Hg. exact Hk.
Qed.

(** Conversely, when the loop returns, every index gave a value and the
    array holds it. *)
Lemma for_loop_fill_inv (count : nat) (done rest out : list A) :
  length rest = count ->
  for_loop (length done) count body (done ++ rest) = Ok out ->
  exists vs, out = done ++ vs /\ length vs = count /\
    forall k, (k < count)%nat ->
      exists v, g (length done + k)%nat = Ok v /\ vs !! k = Some v.
Proof.
  revert done rest out.
  induction count as [| c IH]; intros done rest out Hlen Hrun.
  - destruct rest; [| discriminate]. cbn in Hrun. injection Hrun as <-.
    exists []. repeat split. intros k Hk. lia.
  - destruct rest as [| x rest]; [discriminate |].
    cbn [for_loop] in Hrun. rewrite body_stores in Hrun.
    destruct (g (length done)) as [v | |] eqn:Hv;
      cbn [mbind result_bind] in Hrun; try discriminate.
    replace (<[length done := v]> (done ++ x :: rest))
      with ((done ++ [v]) ++ rest) in Hrun.
    2:{ rewrite <- (Nat.add_0_r (length done)) at 1.
        rewrite insert_app_r. cbn. rewrite <- app_assoc. reflexivity. }
    replace (S (length done)) with (length (done ++ [v])) in Hrun
      by (rewrite length_app; cbn; lia).
    apply IH in Hrun; [| cbn in Hlen; lia].
    destruct Hrun as (vs & -> & Hvs & Hall).
    exists (v :: vs). split; [rewrite <- app_assoc; reflexivity |].
    split; [cbn; lia |].
    intros [| k] Hk.
    + exists v. rewrite Nat.add_0_r. split; [exact Hv | reflexivity].
    + destruct (Hall k ltac:(lia)) as (v' & Hg' & Hl').
      exists v'. split; [| exact Hl'].
      rewrite length_app in Hg'. cbn [length] in Hg'.
      replace (length done + S k)%nat with (length done + 1 + k)%nat by lia.
      exact Hg'.
Qed.
End FillLoop.

Lemma length_empty_cpu {A : Type} (mem : nat -> A) n :
  length (empty_cpu mem n) = n.
Proof. unfold empty_cpu. rewrite length_fmap. apply length_seq. Qed.

(** ** generate_requantization_scales *)

(** C4: for every sequence of weight scales and every input and output
    scale, [generate_requantization_scales] returns a sequence of the same
    length whose element [i] is [weight_scales[i] * input_scale /
    output_scale], the product and the quotient being those of binary32;
    concretely ([1.0; 2.0], 0.5, 0.25) gives [2.0; 4.0]. *)
Theorem generate_requantization_scales_spec :
  (forall (weight_scales : list float) (input_scale output_scale : float),
     exists requant_scales : list float,
       generate_requantization_scales weight_scales input_scale output_scale
         = Ok requant_scales /\
       length requant_scales = length weight_scales /\
       forall i : nat,
         requant_scales !! i
         = (fun w => fdiv (fmul w input_scale) output_scale)
             <$> weight_scales !! i) /\
  generate_requantization_scales [f1_0; f2_0] f0_5 f0_25 = Ok [f2_0; f4_0].
Proof.
  split; [| reflexivity].
  intros ws input_scale output_scale.
  set (h := fun w => fdiv (fmul w input_scale) output_scale).
  exists (h <$> ws). split; [| split].
  - unfold generate_requantization_scales.
    pose proof (for_loop_fill
                  (fun i => w ← raw_read ws i; Ok (h w))
                  (fun i a => w ← raw_read ws i; Ok (<[i := h w]> a))) as Hfill.
    specialize (Hfill ltac:(intros i a; cbv beta; destruct (raw_read ws i); reflexivity)
                  (h <$> ws) [] (replicate (length ws) f1_0)).
    rewrite length_fmap in Hfill. cbn [length app] in Hfill.
    apply Hfill.
    + apply length_replicate.
    + intros k v Hk. rewrite list_lookup_fmap in Hk.
      unfold raw_read. cbn [Nat.add].
      destruct (ws !! k) as [w |]; [| discriminate].
      injection Hk as <-. reflexivity.
  - apply length_fmap.
  - intros i. apply list_lookup_fmap.
Qed.

(** ** make_zero_points_and_scales_tensor *)

(** The per-tensor loops: every element receives the same value. *)
Lemma for_loop_replicate {A : Type} (c : A) (mem : nat -> A) (n : nat) :
  for_loop 0 n (fun i a => Ok (<[i := c]> a)) (empty_cpu mem n)
  = Ok (replicate n c).
Proof.
  pose proof (for_loop_fill (fun _ => Ok c) (fun i a => Ok (<[i := c]> a))
                ltac:(reflexivity) (replicate n c) [] (empty_cpu mem n)) as H.
  rewrite length_replicate in H. apply H.
  - apply length_empty_cpu.
  - intros k v [-> _]%lookup_replicate. reflexivity.
Qed.

(** The per-channel loops: element [i] of the per-channel tensor [t] is
    read, converted by [conv] and stored as [store z]. *)
Section PerChannelLoop.
Context {A B C : Type}.
Variable t : list B.
Variable conv : B -> result C.
Variable store : C -> A.

Let body (i : nat) (a : list A) : result (list A) :=
  e ← tensor_index t i; z ← conv e; Ok (<[i := store z]> a).
Let value (i : nat) : result A :=
  e ← tensor_index t i; z ← conv e; Ok (store z).

Local Lemma body_value i a : body i a = (v ← value i; Ok (<[i := v]> a)).
Proof.
  unfold body, value. destruct (tensor_index t i) as [e | |]; try reflexivity.
  cbn [mbind result_bind]. destruct (conv e); reflexivity.
Qed.

Lemma for_loop_per_channel (f : B -> C) (mem : nat -> A) :
  Forall (fun e => conv e = Ok (f e)) t ->
  for_loop 0 (length t) body (empty_cpu mem (length t))
  = Ok ((fun e => store (f e)) <$> t).
Proof.
  intros Hconv.
  pose proof (for_loop_fill value body body_value
                ((fun e => store (f e)) <$> t) []
                (empty_cpu mem (length t))) as H.
  rewrite length_fmap in H. apply H.
  - apply length_empty_cpu.
  - intros k v Hk. rewrite list_lookup_fmap in Hk.
    unfold value, tensor_index. cbn [length Nat.add].
    destruct (t !! k) as [e |] eqn:He; [| discriminate].
    injection Hk as <-. cbn [mbind result_bind].
    rewrite Forall_lookup in Hconv. rewrite (Hconv k e He). reflexivity.
Qed.

Lemma for_loop_per_channel_inv (mem : nat -> A) (n : nat) (out : list A) :
  for_loop 0 n body (empty_cpu mem n) = Ok out ->
  length out = n /\
  forall i, (i < n)%nat ->
    exists e z, t !! i = Some e /\ conv e = Ok z /\ out !! i = Some (store z).
Proof.
  intros Hrun.
  destruct (for_loop_fill_inv value body body_value n [] (empty_cpu mem n) out
              (length_empty_cpu mem n) Hrun) as (vs & -> & Hlen & Hall).
  split; [exact Hlen |].
  intros i Hi. destruct (Hall i Hi) as (v & Hv & Hl).
  unfold value, tensor_index in Hv. cbn [length Nat.add] in Hv.
  destruct (t !! i) as [e |]; [| discriminate].
  cbn [mbind result_bind] in Hv.
  destruct (conv e) as [z | |] eqn:Hz; try discriminate.
  injection Hv as <-. exists e, z. repeat split; assumption.
Qed.
End PerChannelLoop.

Lemma zero_point_stored_int64 z :
  static_cast_uint8 (add_int64 z 128) = (z + 128) mod 256.
Proof. apply static_cast_uint8_wrap. lia. Qed.

Lemma zero_point_stored_int32 z :
  static_cast_uint8 (add_int32 z 128) = (z + 128) mod 256.
Proof. apply static_cast_uint8_wrap. lia. Qed.

Lemma make_per_tensor zp_mem sc_mem w :
  qscheme w = kPerTensorAffine ->
  make_zero_points_and_scales_tensor zp_mem sc_mem w
  = Ok (replicate (size0 w) ((q_zero_point w + 128) mod 256),
        replicate (size0 w) (q_scale w)).
Proof.
  intros Hq. unfold make_zero_points_and_scales_tensor.
  rewrite Hq. cbn [is_per_tensor].
  rewrite !for_loop_replicate. cbn [mbind result_bind].
  rewrite zero_point_stored_int64. reflexivity.
Qed.

Lemma make_per_channel zp_mem sc_mem w :
  qscheme w = kPerChannelAffine ->
  length (q_per_channel_zero_points w) = size0 w ->
  length (q_per_channel_scales w) = size0 w ->
  Forall (fun z => in_int32 z = true) (q_per_channel_zero_points w) ->
  make_zero_points_and_scales_tensor zp_mem sc_mem w
  = Ok ((fun z => (z + 128) mod 256) <$> q_per_channel_zero_points w,
        q_per_channel_scales w).
Proof.
  intros Hq Hzl Hsl Hz. unfold make_zero_points_and_scales_tensor.
  rewrite Hq. cbn [is_per_tensor is_per_channel].
  rewrite <- Hzl at 1 2.
  rewrite (for_loop_per_channel _ item_int32
             (fun z => static_cast_uint8 (add_int32 z 128)) (fun z => z)).
  2:{ eapply Forall_impl; [exact Hz |]. intros z Hin.
      unfold item_int32. cbn beta in Hin. rewrite Hin. reflexivity. }
  cbn [mbind result_bind].
  rewrite <- Hsl at 1 2.
  rewrite (for_loop_per_channel _ item_float (fun x => x) (fun x => x)).
  2:{ apply Forall_forall. reflexivity. }
  cbn [mbind result_bind]. f_equal. f_equal.
  - apply list_fmap_ext. intros _ z _. apply zero_point_stored_int32.
  - apply list_fmap_id.
Qed.

(** C5: for a weight tensor with [C = size0] output channels the extractor
    returns zero points and scales of length [C].  Under the per-tensor
    affine scheme every channel has zero point [(q_zero_point + 128) mod
    256] and scale [q_scale]; under the per-channel affine scheme (the
    per-channel tensors having [C] elements, the zero points being
    [int32_t] values) channel [i] has zero point
    [(q_per_channel_zero_points[i] + 128) mod 256] and scale
    [q_per_channel_scales[i]].  Concretely: scale 0.5, zero point 10, C = 4
    give [138; 138; 138; 138] and [0.5; 0.5; 0.5; 0.5]; scales [0.1; 0.2],
    zero points [5; -3] give [133; 125] and [0.1; 0.2]. *)
Theorem make_zero_points_and_scales_tensor_spec :
  (forall zp_mem sc_mem w,
     qscheme w = kPerTensorAffine ->
     exists zp sc,
       make_zero_points_and_scales_tensor zp_mem sc_mem w = Ok (zp, sc) /\
       length zp = size0 w /\ length sc = size0 w /\
       forall i, (i < size0 w)%nat ->
         zp !! i = Some ((q_zero_point w + 128) mod 256) /\
         sc !! i = Some (q_scale w)) /\
  (forall zp_mem sc_mem w,
     qscheme w = kPerChannelAffine ->
     length (q_per_channel_zero_points w) = size0 w ->
     length (q_per_channel_scales w) = size0 w ->
     Forall (fun z => in_int32 z = true) (q_per_channel_zero_points w) ->
     exists zp sc,
       make_zero_points_and_scales_tensor zp_mem sc_mem w = Ok (zp, sc) /\
       length zp = size0 w /\ length sc = size0 w /\
       forall i : nat,
         zp !! i = (fun z => (z + 128) mod 256)
                     <$> q_per_channel_zero_points w !! i /\
         sc !! i = q_per_channel_scales w !! i) /\
  (forall zp_mem sc_mem,
     make_zero_points_and_scales_tensor zp_mem sc_mem
       (weight_per_tensor 4 f0_5 10)
     = Ok ([138; 138; 138; 138], [f0_5; f0_5; f0_5; f0_5])) /\
  (forall zp_mem sc_mem,
     make_zero_points_and_scales_tensor zp_mem sc_mem
       (weight_per_channel [f0_1; f0_2] [5; -3])
     = Ok ([133; 125], [f0_1; f0_2])).
Proof.
  split; [| split; [| split; reflexivity]].
  - intros zp_mem sc_mem w Hq.
    eexists _, _. split; [apply make_per_tensor; exact Hq |].
    rewrite !length_replicate. repeat split.
    + apply lookup_replicate. split; [reflexivity | assumption].
    + apply lookup_replicate. split; [reflexivity | assumption].
  - intros zp_mem sc_mem w Hq Hzl Hsl Hz.
    eexists _, _. split; [apply make_per_channel; assumption |].
    rewrite length_fmap. repeat split; try assumption.
    apply list_lookup_fmap.
Qed.

Lemma make_zero_points_and_scales_tensor_spec_witness :
  (qscheme (weight_per_channel [f0_1; f0_2] [5; -3]) = kPerChannelAffine /\
   length [5; -3] = 2%nat /\ length [f0_1; f0_2] = 2%nat /\
   Forall (fun z => in_int32 z = true) [5; -3]) /\
  exists zp sc,
    make_zero_points_and_scales_tensor zp_mem_sample sc_mem_sample
      (weight_per_channel [f0_1; f0_2] [5; -3]) = Ok (zp, sc) /\
    zp !! 1%nat = Some 125 /\ sc !! 1%nat = Some f0_2.
Proof.
  assert (Hz : Forall (fun z => in_int32 z = true) [5; -3])
    by (repeat constructor).
  split; [repeat split; exact Hz |].
  destruct (proj1 (proj2 make_zero_points_and_scales_tensor_spec)
              zp_mem_sample sc_mem_sample
              (weight_per_channel [f0_1; f0_2] [5; -3])
              eq_refl eq_refl eq_refl Hz)
    as (zp & sc & Hrun & _ & _ & Hall).
  exists zp, sc. split; [exact Hrun |].
  destruct (Hall 1%nat) as [-> ->]. split; reflexivity.
Defined.

(** C6: whenever the extractor returns, the zero point it stored for a
    channel is [(z + 128) mod 256], [z] being the weight's zero point for
    that channel (the scalar one under the per-tensor scheme, the
    channel's own under the per-channel scheme), for every integer [z]:
    the bias wraps modulo 256 and does not saturate.  Concretely [z = 200]
    stores 72 under either scheme. *)
Theorem stored_zero_point_wraps :
  (forall zp_mem sc_mem w zp sc,
     make_zero_points_and_scales_tensor zp_mem sc_mem w = Ok (zp, sc) ->
     (qscheme w = kPerTensorAffine ->
      forall i, (i < size0 w)%nat ->
        zp !! i = Some ((q_zero_point w + 128) mod 256)) /\
     (qscheme w = kPerChannelAffine ->
      forall i, (i < size0 w)%nat ->
        exists z, q_per_channel_zero_points w !! i = Some z /\
                  zp !! i = Some ((z + 128) mod 256))) /\
  (forall z, static_cast_uint8 (add_int64 z 128) = (z + 128) mod 256) /\
  (forall z, static_cast_uint8 (add_int32 z 128) = (z + 128) mod 256) /\
  (forall zp_mem sc_mem,
     make_zero_points_and_scales_tensor zp_mem sc_mem
       (weight_per_tensor 1 f0_5 200)
     = Ok ([72], [f0_5])) /\
  (forall zp_mem sc_mem,
     make_zero_points_and_scales_tensor zp_mem sc_mem
       (weight_per_channel [f0_5] [200])
     = Ok ([72], [f0_5])).
Proof.
  split; [| split; [exact zero_point_stored_int64 |
            split; [exact zero_point_stored_int32 | split; reflexivity]]].
  intros zp_mem sc_mem w zp sc Hrun. split.
  - intros Hq i Hi. rewrite (make_per_tensor _ _ _ Hq) in Hrun.
    injection Hrun as <- <-.
    apply lookup_replicate. split; [reflexivity | assumption].
  - intros Hq i Hi. unfold make_zero_points_and_scales_tensor in Hrun.
    rewrite Hq in Hrun. cbn [is_per_tensor is_per_channel] in Hrun.
    match type of Hrun with
    | mbind _ ?loop = _ => destruct loop as [zp' | |] eqn:Hzp
    end; cbn [mbind result_bind] in Hrun; try discriminate.
    match type of Hrun with
    | mbind _ ?loop = _ => destruct loop as [sc' | |]
    end; cbn [mbind result_bind] in Hrun; try discriminate.
    injection Hrun as <- <-.
    apply for_loop_per_channel_inv in Hzp as [_ Hall].
    destruct (Hall i Hi) as (e & z & He & Hz & Hl).
    unfold item_int32 in Hz. destruct (in_int32 e); [| discriminate].
    injection Hz as <-.
    exists e. split; [exact He |].
    rewrite Hl, zero_point_stored_int32. reflexivity.
Qed.

Lemma stored_zero_point_wraps_witness :
  (make_zero_points_and_scales_tensor zp_mem_sample sc_mem_sample
     (weight_per_channel [f0_1; f0_2] [200; -3])
     = Ok ([72; 125], [f0_1; f0_2]) /\
   qscheme (weight_per_channel [f0_1; f0_2] [200; -3]) = kPerChannelAffine /\
   (0 < 2)%nat) /\
  exists z, [200; -3] !! 0%nat = Some z /\
            [72; 125] !! 0%nat = Some ((z + 128) mod 256).
Proof.
  split; [repeat split; lia |].
  apply (proj2 (proj1 stored_zero_point_wraps
                  zp_mem_sample sc_mem_sample
                  (weight_per_channel [f0_1; f0_2] [200; -3])
                  [72; 125] [f0_1; f0_2] eq_refl) eq_refl 0%nat).
  cbn. lia.
Defined.

(** C8 (amended): when the scheme is neither per-tensor affine nor
    per-channel affine the extractor does not fail: it returns the two
    freshly allocated arrays of length [size0] without having written to
    them, so that they hold whatever the allocation held. *)
Theorem make_zero_points_and_scales_tensor_other_scheme zp_mem sc_mem w :
  qscheme w <> kPerTensorAffine -> qscheme w <> kPerChannelAffine ->
  make_zero_points_and_scales_tensor zp_mem sc_mem w
    = Ok (empty_cpu zp_mem (size0 w), empty_cpu sc_mem (size0 w)) /\
  length (empty_cpu zp_mem (size0 w)) = size0 w /\
  length (empty_cpu sc_mem (size0 w)) = size0 w.
Proof.
  intros Ht Hc. rewrite !length_empty_cpu. split; [| split; reflexivity].
  unfold make_zero_points_and_scales_tensor.
  destruct (qscheme w); try contradiction; reflexivity.
Qed.

Lemma make_zero_points_and_scales_tensor_other_scheme_witness :
  (qscheme weight_symmetric <> kPerTensorAffine /\
   qscheme weight_symmetric <> kPerChannelAffine) /\
  make_zero_points_and_scales_tensor zp_mem_sample sc_mem_sample
    weight_symmetric = Ok ([7; 8], [f1_0; f1_0]).
Proof.
  split; [split; discriminate |].
  apply (make_zero_points_and_scales_tensor_other_scheme
           zp_mem_sample sc_mem_sample weight_symmetric); discriminate.
Defined.

(** C8, as stated, fails: a per-tensor symmetric weight makes the extractor
    return (here the allocations' contents 7, 8 and 1.0, 1.0), it does not
    make it raise. *)
Lemma make_zero_points_and_scales_tensor_no_failure :
  qscheme weight_symmetric <> kPerTensorAffine /\
  qscheme weight_symmetric <> kPerChannelAffine /\
  make_zero_points_and_scales_tensor zp_mem_sample sc_mem_sample
    weight_symmetric = Ok ([7; 8], [f1_0; f1_0]) /\
  make_zero_points_and_scales_tensor zp_mem_sample sc_mem_sample
    weight_symmetric <> Throw.
Proof. repeat split; discriminate. Qed.

(** * Further properties *)

(** ** Degenerate arguments of QuantizeUint8 *)

(** X1: [QuantizeUint8] has no defined result when the value is NaN or
    infinite, or the scale is NaN or zero: the quotient is then NaN or
    infinite, and its conversion to [int32_t] is undefined behaviour. *)
Theorem QuantizeUint8_degenerate scale zero_point value :
  is_nan value = true \/ is_infinity value = true \/
  is_nan scale = true \/ is_zero scale = true ->
  QuantizeUint8 scale zero_point value = Undefined.
Proof.
  intros H.
  destruct value as [sv | sv | | sv mv ev], scale as [ss | ss | | ss ms es];
    try reflexivity;
    destruct H as [H | [H | [H | H]]]; discriminate H.
Qed.

Lemma QuantizeUint8_degenerate_witness :
  (is_nan f1_0 = true \/ is_infinity f1_0 = true \/
   is_nan (S754_zero false) = true \/ is_zero (S754_zero false) = true) /\
  QuantizeUint8 (S754_zero false) 50 f1_0 = Undefined.
Proof.
  split; [right; right; right; reflexivity |].
  apply (QuantizeUint8_degenerate (S754_zero false) 50 f1_0).
  right; right; right; reflexivity.
Defined.

(** X2: with [RELU], [activationLimits] returns a range exactly when the
    scale is a number other than zero, of either sign and finite or not;
    the range is then (clamp(zero_point, 0, 255), 255).  For a scale that
    is zero or NaN the call is undefined. *)
Theorem activationLimits_relu_defined scale zero_point :
  in_int32 zero_point = true ->
  activationLimits scale zero_point RELU
  = if is_zero scale || is_nan scale then Undefined
    else Ok (Z.min (Z.max zero_point 0) 255, 255).
Proof.
  intros Hzp.
  destruct (is_zero scale) eqn:Hz; [| destruct (is_nan scale) eqn:Hn].
  - cbn [orb activationLimits Z.eqb NONE RELU].
    rewrite QuantizeUint8_degenerate by auto. reflexivity.
  - cbn [orb activationLimits Z.eqb NONE RELU].
    rewrite QuantizeUint8_degenerate by auto. reflexivity.
  - cbn [orb activationLimits Z.eqb NONE RELU].
    rewrite (QuantizeUint8_zero _ _ Hz Hn Hzp). reflexivity.
Qed.

Lemma activationLimits_relu_defined_witness :
  in_int32 (-7) = true /\
  activationLimits (SFopp f0_1) (-7) RELU = Ok (0, 255).
Proof.
  split; [reflexivity |].
  apply (activationLimits_relu_defined (SFopp f0_1) (-7)). reflexivity.
Defined.

(** ** Signs *)

(** The sign handed to the rounding step is the sign of its result. *)
Lemma binary_round_aux_opp p x s m e l :
  binary_round_aux p x (negb s) m e l = SFopp (binary_round_aux p x s m e l).
Proof.
  unfold binary_round_aux.
  destruct (shr_fexp p x m e l) as [mrs' e'].
  destruct (shr_fexp p x _ e' loc_Exact) as [mrs'' e''].
  destruct (shr_m mrs''); try reflexivity.
  destruct (e'' <=? x - p); reflexivity.
Qed.

Lemma fdiv_opp_l value scale :
  fdiv (SFopp value) scale = SFopp (fdiv value scale).
Proof.
  destruct value as [sv | sv | | sv mv ev], scale as [ss | ss | | ss ms es];
    try reflexivity;
    try (destruct sv, ss; reflexivity).
  unfold fdiv. cbn [SFopp SFdiv].
  destruct (SFdiv_core_binary prec emax (Z.pos mv) ev (Z.pos ms) es)
    as [[mz ez] lz].
  replace (xorb (negb sv) ss) with (negb (xorb sv ss)) by (destruct sv, ss; reflexivity).
  apply binary_round_aux_opp.
Qed.

Lemma binary_round_opp p x s m e :
  binary_round p x (negb s) m e = SFopp (binary_round p x s m e).
Proof.
  unfold binary_round.
  destruct (shl_align m e (fexp p x (Z.pos (digits2_pos m) + e))) as [mz ez].
  apply binary_round_aux_opp.
Qed.

Lemma binary_normalize_opp p x s n :
  binary_normalize p x (cond_Zopp (negb s) n) 0 (negb s)
  = SFopp (binary_normalize p x (cond_Zopp s n) 0 s).
Proof.
  destruct n as [| q | q], s; try reflexivity;
    change (cond_Zopp true (Z.pos q)) with (Z.neg q);
    change (cond_Zopp true (Z.neg q)) with (Z.pos q);
    cbn [cond_Zopp negb binary_normalize];
    first [ apply (binary_round_opp p x false)
          | apply (binary_round_opp p x true) ].
Qed.

Lemma nearbyint_opp x : nearbyint (SFopp x) = SFopp (nearbyint x).
Proof.
  destruct x as [s | s | | s m e]; try reflexivity.
  cbn [SFopp nearbyint]. destruct (0 <=? e); [reflexivity |].
  apply binary_normalize_opp.
Qed.

Lemma trunc_opp x : trunc (SFopp x) = Z.opp <$> trunc x.
Proof.
  destruct x as [s | s | | s m e]; try reflexivity.
  cbn [trunc SFopp fmap option_fmap option_map]. f_equal.
  destruct s; cbn [negb cond_Zopp]; lia.
Qed.

(** X3: quantization is symmetric about the zero point.  [Round] and the
    quotient are odd functions, so when [value / scale] rounds to the
    integer [n] (with [- n] still an [int32_t]), [- value] rounds to [- n]
    and [QuantizeUint8] returns the clamp of [zero_point - n]. *)
Theorem QuantizeUint8_opp scale zero_point value n :
  static_cast_int32 (Round (fdiv value scale)) = Ok n ->
  in_int32 (- n) = true ->
  Round (fdiv (SFopp value) scale) = SFopp (Round (fdiv value scale)) /\
  QuantizeUint8 scale zero_point (SFopp value)
  = Ok (Z.min (Z.max (add_int32 zero_point (- n)) 0) 255).
Proof.
  intros Hn Hopp.
  assert (HR : Round (fdiv (SFopp value) scale)
               = SFopp (Round (fdiv value scale))).
  { unfold Round. rewrite fdiv_opp_l. apply nearbyint_opp. }
  split; [exact HR |].
  apply QuantizeUint8_defined; [| exact Hopp].
  rewrite HR, trunc_opp.
  unfold static_cast_int32 in Hn.
  destruct (trunc (Round (fdiv value scale))) as [k |]; [| discriminate].
  destruct (in_int32 k); [| discriminate].
  injection Hn as ->. reflexivity.
Qed.

Lemma QuantizeUint8_opp_witness :
  (static_cast_int32 (Round (fdiv f2_5 f1_0)) = Ok 2 /\
   in_int32 (- 2) = true) /\
  QuantizeUint8 f1_0 10 (SFopp f2_5) = Ok 8.
Proof.
  split; [split; reflexivity |].
  exact (proj2 (QuantizeUint8_opp f1_0 10 f2_5 2 eq_refl eq_refl)).
Defined.

Lemma binary_round_aux_false p x m e l mm ee :
  binary_round_aux p x false m e l <> S754_finite true mm ee.
Proof.
  unfold binary_round_aux.
  destruct (shr_fexp p x m e l) as [mrs' e'].
  destruct (shr_fexp p x _ e' loc_Exact) as [mrs'' e''].
  destruct (shr_m mrs''); try discriminate.
  destruct (e'' <=? x - p); discriminate.
Qed.

Lemma fdiv_sign_clear value scale mm ee :
  positive scale -> sign_clear value = true ->
  fdiv value scale <> S754_finite true mm ee.
Proof.
  intros Hs Hv.
  destruct value as [sv | sv | | sv mv ev], scale as [ss | ss | | ss ms es];
    try discriminate; try (destruct sv, ss; discriminate).
  destruct sv; [discriminate |]. destruct ss; [discriminate |].
  unfold fdiv. cbn [SFdiv xorb].
  destruct (SFdiv_core_binary prec emax (Z.pos mv) ev (Z.pos ms) es)
    as [[mz ez] lz].
  apply binary_round_aux_false.
Qed.

Lemma nearbyint_sign_clear x :
  (forall mm ee, x <> S754_finite true mm ee) ->
  forall mm ee, nearbyint x <> S754_finite true mm ee.
Proof.
  intros Hx mm ee. destruct x as [s | s | | s m e]; try discriminate.
  destruct s; [exfalso; exact (Hx m e eq_refl) |].
  cbn [nearbyint]. destruct (0 <=? e) eqn:He; [discriminate |].
  cbn [cond_Zopp]. unfold rne_div.
  assert (0 <= Z.pos m / 2 ^ (- e)) as Hq
    by (apply Z.div_pos; [lia | apply Z.pow_pos_nonneg; lia]).
  set (n := match 2 * (Z.pos m mod 2 ^ (- e)) ?= 2 ^ (- e) with
            | Eq => if Z.even (Z.pos m / 2 ^ (- e)) then Z.pos m / 2 ^ (- e)
                    else Z.pos m / 2 ^ (- e) + 1
            | Lt => Z.pos m / 2 ^ (- e)
            | Gt => Z.pos m / 2 ^ (- e) + 1
            end).
  assert (0 <= n) as Hn.
  { subst n. destruct (_ ?= _); [destruct (Z.even _) | |]; lia. }
  destruct n as [| q | q]; [discriminate | | lia].
  cbn [binary_normalize]. unfold binary_round.
  destruct (shl_align q 0 _) as [mz ez].
  apply binary_round_aux_false.
Qed.

Lemma trunc_nonneg x n :
  (forall mm ee, x <> S754_finite true mm ee) -> trunc x = Some n -> 0 <= n.
Proof.
  intros Hx. destruct x as [s | s | | s m e]; try discriminate.
  - intros [= <-]. lia.
  - destruct s; [exfalso; exact (Hx m e eq_refl) |].
    cbn [trunc cond_Zopp]. intros [= <-].
    destruct (0 <=? e) eqn:He.
    + assert (0 <= 2 ^ e) by (apply Z.pow_nonneg; lia). lia.
    + apply Z.div_pos; [lia | apply Z.pow_pos_nonneg; lia].
Qed.

(** ** QuantizeUint8 and the ReLU range *)

(** X4: what makes the fused ReLU clamp right.  For a scale > 0 and a
    value with a clear sign bit whose quotient rounds to an [int32_t] [n]
    (the sum with the zero point not overflowing), [n] is not negative and
    the byte [QuantizeUint8] returns for the value lies in the range
    [activationLimits] returns for [RELU]. *)
Theorem QuantizeUint8_in_relu_range scale zero_point value n :
  positive scale -> sign_clear value = true ->
  static_cast_int32 (Round (fdiv value scale)) = Ok n ->
  in_int32 zero_point = true -> in_int32 (zero_point + n) = true ->
  0 <= n /\
  exists lo q,
    activationLimits scale zero_point RELU = Ok (lo, 255) /\
    QuantizeUint8 scale zero_point value = Ok q /\
    lo <= q <= 255.
Proof.
  intros Hs Hv Hn Hzp Hsum.
  unfold static_cast_int32 in Hn.
  destruct (trunc (Round (fdiv value scale))) as [k |] eqn:Hk; [| discriminate].
  destruct (in_int32 k) eqn:Hin; [| discriminate].
  injection Hn as ->.
  assert (0 <= n) as Hpos.
  { apply (trunc_nonneg (Round (fdiv value scale))); [| exact Hk].
    apply nearbyint_sign_clear. intros mm ee.
    apply fdiv_sign_clear; assumption. }
  split; [exact Hpos |].
  destruct (positive_number scale Hs) as [Hz Hnan].
  exists (Z.min (Z.max zero_point 0) 255),
         (Z.min (Z.max (zero_point + n) 0) 255).
  split; [| split].
  - cbn [activationLimits Z.eqb NONE RELU].
    rewrite (QuantizeUint8_zero _ _ Hz Hnan Hzp). reflexivity.
  - rewrite (QuantizeUint8_defined _ _ _ _ Hk Hin).
    rewrite (add_int32_small _ _ Hsum). reflexivity.
  - lia.
Qed.

Lemma QuantizeUint8_in_relu_range_witness :
  (positive f0_5 /\ sign_clear f3_0 = true /\
   static_cast_int32 (Round (fdiv f3_0 f0_5)) = Ok 6 /\
   in_int32 50 = true /\ in_int32 (50 + 6) = true) /\
  0 <= 6 /\
  exists lo q,
    activationLimits f0_5 50 RELU = Ok (lo, 255) /\
    QuantizeUint8 f0_5 50 f3_0 = Ok q /\ lo <= q <= 255.
Proof.
  split; [repeat split |].
  apply (QuantizeUint8_in_relu_range f0_5 50 f3_0 6); reflexivity.
Defined.

(** ** Round on integral values *)

Lemma rne_div_exact q d : 0 < d -> rne_div (q * d) d = q.
Proof.
  intros Hd. unfold rne_div.
  rewrite Z.div_mul, Z.mod_mul by lia.
  destruct (Z.compare_spec (2 * 0) d); [lia | reflexivity | lia].
Qed.

Lemma rne_div_below m e :
  e < 0 -> Zpos m < 2 ^ 24 -> 0 <= rne_div (Zpos m) (2 ^ (- e)) < 2 ^ 24.
Proof.
  intros He Hm.
  assert (0 < 2 ^ (- e)) as Hd by (apply Z.pow_pos_nonneg; lia).
  pose proof (rne_div_bounds (Zpos m) (2 ^ (- e)) ltac:(lia) Hd) as Hb.
  assert (0 <= Zpos m / 2 ^ (- e)) by (apply Z.div_pos; lia).
  assert (Zpos m / 2 ^ (- e) <= Zpos m / 2 ^ 1).
  { apply Z.div_le_compat_l; [lia |].
    split; [lia |]. apply Z.pow_le_mono_r; lia. }
  assert (Zpos m / 2 ^ 1 < 2 ^ 23).
  { apply Z.div_lt_upper_bound; [lia |].
    change (2 ^ 1 * 2 ^ 23) with (2 ^ 24). lia. }
  change (2 ^ 24) with (2 * 2 ^ 23). lia.
Qed.




(** ** More on loops that fill an array *)

Section FillLoopOutcome.
Context {A : Type}.
Variable g : nat -> result A.
Variable body : nat -> list A -> result (list A).
Hypothesis body_stores :
  forall i a, body i a = (v ← g i; Ok (<[i := v]> a)).

(** The outcome does not depend on what the part of the array that the
    loop runs over held before. *)
Lemma for_loop_fill_same (count : nat) (done rest rest' : list A) :
  length rest = count -> length rest' = count ->
  for_loop (length done) count body (done ++ rest)
  = for_loop (length done) count body (done ++ rest').
Proof.
  revert done rest rest'.
  induction count as [| c IH]; intros done rest rest' Hl Hl'.
  - destruct rest; [| discriminate]. destruct rest'; [| discriminate].
    reflexivity.
  - destruct rest as [| x rest]; [discriminate |].
    destruct rest' as [| x' rest']; [discriminate |].
    cbn [for_loop]. rewrite !body_stores.
    destruct (g (length done)) as [v | |]; try reflexivity.
    cbn [mbind result_bind].
    assert (Hins : forall y r, <[length done := v]> (done ++ y :: r)
                               = (done ++ [v]) ++ r).
    { intros y r. rewrite <- (Nat.add_0_r (length done)) at 1.
      rewrite insert_app_r. cbn. rewrite <- app_assoc. reflexivity. }
    rewrite !Hins.
    replace (S (length done)) with (length (done ++ [v]))
      by (rewrite length_app; cbn; lia).
    apply IH; cbn in Hl, Hl'; lia.
Qed.

End FillLoopOutcome.

Section PerChannelOutcome.
Context {A B C : Type}.
Variable t : list B.
Variable conv : B -> result C.
Variable store : C -> A.

Let body (i : nat) (a : list A) : result (list A) :=
  e ← tensor_index t i; z ← conv e; Ok (<[i := store z]> a).
Let value (i : nat) : result A :=
  e ← tensor_index t i; z ← conv e; Ok (store z).

Local Lemma body_value' i a : body i a = (v ← value i; Ok (<[i := v]> a)).
Proof.
  unfold body, value. destruct (tensor_index t i) as [e | |]; try reflexivity.
  cbn [mbind result_bind]. destruct (conv e); reflexivity.
Qed.

Lemma for_loop_per_channel_take (f : B -> C) (mem : nat -> A) (n : nat) :
  (n <= length t)%nat ->
  Forall (fun e => conv e = Ok (f e)) (take n t) ->
  for_loop 0 n body (empty_cpu mem n)
  = Ok ((fun e => store (f e)) <$> take n t).
Proof.
  intros Hn Hconv.
  pose proof (for_loop_fill value body body_value'
                ((fun e => store (f e)) <$> take n t) []
                (empty_cpu mem n)) as H.
  rewrite length_fmap, length_take_le in H by exact Hn. apply H.
  - apply length_empty_cpu.
  - intros k v Hk. rewrite list_lookup_fmap in Hk.
    unfold value, tensor_index. cbn [length Nat.add].
    destruct (take n t !! k) as [e |] eqn:He; [| discriminate].
    injection Hk as <-.
    pose proof (Forall_lookup_1 _ _ _ _ Hconv He) as Hc. cbv beta in Hc.
    apply lookup_take_Some in He as [He _]. rewrite He.
    cbn [mbind result_bind]. rewrite Hc. reflexivity.
Qed.

Lemma for_loop_per_channel_mem (mem mem' : nat -> A) (n : nat) :
  for_loop 0 n body (empty_cpu mem n) = for_loop 0 n body (empty_cpu mem' n).
Proof.
  apply (for_loop_fill_same value body body_value' n []);
    apply length_empty_cpu.
Qed.

End PerChannelOutcome.



(** ** Outcomes of make_zero_points_and_scales_tensor *)

(** X6: under the two affine schemes the outcome of the extractor, its
    failure included, does not depend on what the two allocations held:
    every element returned has been written. *)
Theorem make_zero_points_and_scales_tensor_initialised
    zp_mem sc_mem zp_mem' sc_mem' w :
  qscheme w = kPerTensorAffine \/ qscheme w = kPerChannelAffine ->
  make_zero_points_and_scales_tensor zp_mem sc_mem w
  = make_zero_points_and_scales_tensor zp_mem' sc_mem' w.
Proof.
  intros [Hq | Hq].
  - rewrite !(make_per_tensor _ _ _ Hq). reflexivity.
  - unfold make_zero_points_and_scales_tensor.
    rewrite Hq. cbn [is_per_tensor is_per_channel].
    rewrite (for_loop_per_channel_mem _ item_int32
               (fun z => static_cast_uint8 (add_int32 z 128))
               zp_mem zp_mem').
    rewrite (for_loop_per_channel_mem _ item_float (fun x => x)
               sc_mem sc_mem').
    reflexivity.
Qed.

Lemma make_zero_points_and_scales_tensor_initialised_witness :
  (qscheme (weight_per_channel [f0_1; f0_2] [5; -3]) = kPerTensorAffine \/
   qscheme (weight_per_channel [f0_1; f0_2] [5; -3]) = kPerChannelAffine) /\
  make_zero_points_and_scales_tensor zp_mem_sample sc_mem_sample
    (weight_per_channel [f0_1; f0_2] [5; -3])
  = make_zero_points_and_scales_tensor (fun _ => 0) (fun _ => f0_0)
      (weight_per_channel [f0_1; f0_2] [5; -3]).
Proof.
  split; [right; reflexivity |].
  apply (make_zero_points_and_scales_tensor_initialised
           zp_mem_sample sc_mem_sample (fun _ => 0) (fun _ => f0_0)
           (weight_per_channel [f0_1; f0_2] [5; -3])).
  right. reflexivity.
Defined.


Lemma make_per_channel_expand zp_mem sc_mem w :
  qscheme w = kPerChannelAffine ->
  make_zero_points_and_scales_tensor zp_mem sc_mem w
  = (weight_zp ←
       for_loop 0 (size0 w)
         (fun i a =>
            e ← tensor_index (q_per_channel_zero_points w) i;
            z ← item_int32 e;
            Ok (<[i := static_cast_uint8 (add_int32 z 128)]> a))
         (empty_cpu zp_mem (size0 w));
     weight_scales ←
       for_loop 0 (size0 w)
         (fun i a =>
            e ← tensor_index (q_per_channel_scales w) i;
            x ← item_float e;
            Ok (<[i := x]> a))
         (empty_cpu sc_mem (size0 w));
     Ok (weight_zp, weight_scales)).
Proof.
  intros Hq. unfold make_zero_points_and_scales_tensor. rewrite Hq.
  reflexivity.
Qed.

Lemma make_per_channel_readable zp_mem sc_mem w :
  qscheme w = kPerChannelAffine -> per_channel_readable w ->
  make_zero_points_and_scales_tensor zp_mem sc_mem w
  = Ok ((fun z => (z + 128) mod 256)
          <$> take (size0 w) (q_per_channel_zero_points w),
        take (size0 w) (q_per_channel_scales w)).
Proof.
  intros Hq (Hzl & Hsl & Hz). rewrite (make_per_channel_expand _ _ _ Hq).
  rewrite (for_loop_per_channel_take _ item_int32
             (fun z => static_cast_uint8 (add_int32 z 128)) (fun z => z)
             zp_mem (size0 w) Hzl).
  2:{ eapply Forall_impl; [exact Hz |]. intros z Hin.
      unfold item_int32. cbn beta in Hin. rewrite Hin. reflexivity. }
  cbn [mbind result_bind].
  rewrite (for_loop_per_channel_take _ item_float (fun x => x) (fun x => x)
             sc_mem (size0 w) Hsl).
  2:{ apply Forall_forall. reflexivity. }
  cbn [mbind result_bind]. f_equal. f_equal.
  - apply list_fmap_ext. intros _ z _. apply zero_point_stored_int32.
  - apply list_fmap_id.
Qed.



(** X8: whenever the extractor returns, whatever the scheme, both
    sequences have [size0] elements; under the two affine schemes every
    zero point returned is a byte. *)
Theorem make_zero_points_and_scales_tensor_shape zp_mem sc_mem w zp sc :
  make_zero_points_and_scales_tensor zp_mem sc_mem w = Ok (zp, sc) ->
  length zp = size0 w /\ length sc = size0 w /\
  (qscheme w = kPerTensorAffine \/ qscheme w = kPerChannelAffine ->
   Forall (fun z => 0 <= z <= 255) zp).
Proof.
  intros Hrun.
  assert (Hbyte : forall x, 0 <= x mod 256 <= 255).
  { intros x. pose proof (Z.mod_pos_bound x 256 ltac:(lia)). lia. }
  destruct (qscheme w) eqn:Hq.
  - rewrite (make_per_tensor _ _ _ Hq) in Hrun. injection Hrun as <- <-.
    rewrite !length_replicate. repeat split.
    intros _. apply Forall_replicate. apply Hbyte.
  - unfold make_zero_points_and_scales_tensor in Hrun.
    rewrite Hq in Hrun. cbn [is_per_tensor is_per_channel] in Hrun.
    match type of Hrun with
    | mbind _ ?loop = _ => destruct loop as [zp' | |] eqn:Hzp
    end; cbn [mbind result_bind] in Hrun; try discriminate.
    match type of Hrun with
    | mbind _ ?loop = _ => destruct loop as [sc' | |] eqn:Hsc
    end; cbn [mbind result_bind] in Hrun; try discriminate.
    injection Hrun as <- <-.
    apply for_loop_per_channel_inv in Hzp as [Hlz Hall].
    apply for_loop_per_channel_inv in Hsc as [Hls _].
    repeat split; try assumption.
    intros _. apply Forall_lookup_2. intros i x Hx.
    pose proof (lookup_lt_Some _ _ _ Hx) as Hi. rewrite Hlz in Hi.
    destruct (Hall i Hi) as (e & z & _ & _ & Hl).
    rewrite Hx in Hl. injection Hl as ->. apply Hbyte.
  - unfold make_zero_points_and_scales_tensor in Hrun.
    rewrite Hq in Hrun. injection Hrun as <- <-.
    rewrite !length_empty_cpu. repeat split. intros [|]; discriminate.
  - unfold make_zero_points_and_scales_tensor in Hrun.
    rewrite Hq in Hrun. injection Hrun as <- <-.
    rewrite !length_empty_cpu. repeat split. intros [|]; discriminate.
Qed.

Lemma make_zero_points_and_scales_tensor_shape_witness :
  make_zero_points_and_scales_tensor zp_mem_sample sc_mem_sample
    (weight_per_channel [f0_1; f0_2] [200; -3])
    = Ok ([72; 125], [f0_1; f0_2]) /\
  length [72; 125] = 2%nat /\ Forall (fun z => 0 <= z <= 255) [72; 125].
Proof.
  split; [reflexivity |].
  destruct (make_zero_points_and_scales_tensor_shape
              zp_mem_sample sc_mem_sample
              (weight_per_channel [f0_1; f0_2] [200; -3])
              [72; 125] [f0_1; f0_2] eq_refl) as (Hl & _ & Hb).
  split; [exact Hl |]. apply Hb. right. reflexivity.
Defined.

(** ** The zero-point bias *)

Lemma bias_flips_top_bit z : 0 <= z <= 255 -> (z + 128) mod 256 = Z.lxor z 128.
Proof.
  intros Hz.
  assert (H : forallb (fun n => (Z.of_nat n + 128) mod 256
                              =? Z.lxor (Z.of_nat n) 128) (seq 0 256) = true)
    by (vm_compute; reflexivity).
  rewrite forallb_forall in H.
  specialize (H (Z.to_nat z)).
  rewrite Z2Nat.id in H by lia.
  apply Z.eqb_eq, H, in_seq. lia.
Qed.

(** X9: the bias stored by the extractor is exact on signed bytes: a zero
    point [z] in [-128, 127] is stored as [z + 128], without wrap-around,
    so that [z] is the stored byte minus 128.  On an unsigned byte the bias
    flips the top bit.  Biasing twice gives the zero point back modulo
    256. *)
Theorem zero_point_bias_exact z :
  (-128 <= z <= 127 ->
   static_cast_uint8 (add_int32 z 128) = z + 128 /\
   static_cast_uint8 (add_int64 z 128) = z + 128 /\
   forall zp_mem sc_mem n s,
     make_zero_points_and_scales_tensor zp_mem sc_mem (weight_per_tensor n s z)
     = Ok (replicate n (z + 128), replicate n s)) /\
  (0 <= z <= 255 -> static_cast_uint8 (add_int32 z 128) = Z.lxor z 128) /\
  static_cast_uint8
    (add_int32 (static_cast_uint8 (add_int32 z 128)) 128) = z mod 256.
Proof.
  rewrite !zero_point_stored_int32, zero_point_stored_int64.
  split; [| split].
  - intros Hz. rewrite Z.mod_small by lia. repeat split.
    intros zp_mem sc_mem n s.
    rewrite make_per_tensor by reflexivity. cbn [size0 q_zero_point q_scale weight_per_tensor].
    rewrite Z.mod_small by lia. reflexivity.
  - apply bias_flips_top_bit.
  - rewrite Zplus_mod_idemp_l.
    replace (z + 128 + 128) with (z + 1 * 256) by lia.
    apply Z.mod_add. lia.
Qed.

Lemma zero_point_bias_exact_witness :
  (-128 <= -3 <= 127) /\
  static_cast_uint8 (add_int32 (-3) 128) = -3 + 128.
Proof.
  split; [lia |].
  apply (proj1 (zero_point_bias_exact (-3))). lia.
Defined.

(** ** More on generate_requantization_scales *)

Lemma generate_requantization_scales_map ws input_scale output_scale :
  generate_requantization_scales ws input_scale output_scale
  = Ok ((fun w => fdiv (fmul w input_scale) output_scale) <$> ws).
Proof.
  set (h := fun w => fdiv (fmul w input_scale) output_scale).
  unfold generate_requantization_scales.
  pose proof (for_loop_fill
                (fun i => w ← raw_read ws i; Ok (h w))
                (fun i a => w ← raw_read ws i; Ok (<[i := h w]> a))) as Hfill.
  specialize (Hfill ltac:(intros i a; cbv beta; destruct (raw_read ws i);
                          reflexivity)
                (h <$> ws) [] (replicate (length ws) f1_0)).
  rewrite length_fmap in Hfill. cbn [length app] in Hfill.
  apply Hfill.
  - apply length_replicate.
  - intros k v Hk. rewrite list_lookup_fmap in Hk.
    unfold raw_read. cbn [Nat.add].
    destruct (ws !! k) as [w |]; [| discriminate].
    injection Hk as <-. reflexivity.
Qed.

(** X10: a zero output scale is not rejected: the call returns, and every
    requantization scale it returns is infinite or NaN.  Likewise a NaN
    input or output scale makes every element NaN. *)
Theorem generate_requantization_scales_bad_scale ws input_scale output_scale :
  exists out,
    generate_requantization_scales ws input_scale output_scale = Ok out /\
    length out = length ws /\
    (is_zero output_scale = true ->
     Forall (fun x => is_infinity x || is_nan x = true) out) /\
    (is_nan input_scale = true \/ is_nan output_scale = true ->
     Forall (fun x => is_nan x = true) out).
Proof.
  eexists. split; [apply generate_requantization_scales_map |].
  split; [apply length_fmap |]. split.
  - intros Hz. apply Forall_fmap, Forall_forall. intros w _. cbn.
    destruct output_scale as [s | s | | s m e]; try discriminate.
    unfold fdiv. destruct (fmul w input_scale); reflexivity.
  - intros Hn. apply Forall_fmap, Forall_forall. intros w _. cbn.
    destruct Hn as [Hn | Hn].
    + destruct input_scale; try discriminate.
      replace (fmul w S754_nan) with S754_nan by (destruct w; reflexivity).
      reflexivity.
    + destruct output_scale; try discriminate.
      unfold fdiv. destruct (fmul w input_scale); reflexivity.
Qed.

Lemma generate_requantization_scales_bad_scale_witness :
  is_zero (S754_zero false) = true /\
  exists out,
    generate_requantization_scales [f1_0; f0_0] f0_5 (S754_zero false)
    = Ok out /\
    Forall (fun x => is_infinity x || is_nan x = true) out.
Proof.
  split; [reflexivity |].
  destruct (generate_requantization_scales_bad_scale
              [f1_0; f0_0] f0_5 (S754_zero false))
    as (out & Hrun & _ & Hz & _).
  exists out. split; [exact Hrun | apply Hz; reflexivity].
Defined.

(** X11: the extractor feeds the requantization: under the per-tensor
    scheme the scales it returns give [size0] equal requantization scales
    [q_scale * input_scale / output_scale]; under the per-channel scheme
    (parameters readable) they give one scale per channel, from the
    channel's own weight scale. *)
Theorem extractor_then_requantization zp_mem sc_mem w input_scale output_scale :
  (qscheme w = kPerTensorAffine ->
   exists zp sc,
     make_zero_points_and_scales_tensor zp_mem sc_mem w = Ok (zp, sc) /\
     generate_requantization_scales sc input_scale output_scale
     = Ok (replicate (size0 w)
             (fdiv (fmul (q_scale w) input_scale) output_scale))) /\
  (qscheme w = kPerChannelAffine -> per_channel_readable w ->
   exists zp sc,
     make_zero_points_and_scales_tensor zp_mem sc_mem w = Ok (zp, sc) /\
     generate_requantization_scales sc input_scale output_scale
     = Ok ((fun s => fdiv (fmul s input_scale) output_scale)
             <$> take (size0 w) (q_per_channel_scales w))).
Proof.
  split.
  - intros Hq. eexists _, _. split; [apply make_per_tensor; exact Hq |].
    rewrite generate_requantization_scales_map, fmap_replicate. reflexivity.
  - intros Hq Hr. eexists _, _. split.
    + apply make_per_channel_readable; assumption.
    + apply generate_requantization_scales_map.
Qed.

Lemma extractor_then_requantization_witness :
  (qscheme (weight_per_tensor 2 f2_0 10) = kPerTensorAffine) /\
  exists zp sc,
    make_zero_points_and_scales_tensor zp_mem_sample sc_mem_sample
      (weight_per_tensor 2 f2_0 10) = Ok (zp, sc) /\
    generate_requantization_scales sc f0_5 f0_25 = Ok [f4_0; f4_0].
Proof.
  split; [reflexivity |].
  apply (proj1 (extractor_then_requantization zp_mem_sample sc_mem_sample
                  (weight_per_tensor 2 f2_0 10) f0_5 f0_25) eq_refl).
Defined.

(** ** The two variants of Round *)

Section Normalisation.
(** A format of precision [P] and maximal exponent [X]. *)
Variables P X : Z.
Hypothesis P_pos : 0 < P.
Hypothesis P_le_X : P <= X.
Hypothesis X_ge_2 : 2 <= X.

Lemma binary_round_aux_exact_gen s m e :
  Zpos (digits2_pos m) = P -> 3 - X - P <= e <= X - P ->
  binary_round_aux P X s (Zpos m) e loc_Exact = S754_finite s m e.
Proof.
  intros Hd He.
  unfold binary_round_aux, shr_fexp, fexp, emin.
  cbn [Zdigits2 shr_record_of_loc]. rewrite Hd.
  replace (Z.max (P + e - P) (3 - X - P) - e) with 0 by lia.
  cbn [shr shr_m loc_of_shr_record round_nearest_even Zdigits2].
  rewrite Hd.
  replace (Z.max (P + e - P) (3 - X - P) - e) with 0 by lia.
  cbn [shr shr_m].
  destruct (e <=? X - P) eqn:Hle; [reflexivity | lia].
Qed.

(** Rounding a significand of at most [P] bits whose exponent leaves room
    only shifts it to [P] bits. *)
Lemma binary_round_shift s m e :
  Zpos (digits2_pos m) <= P ->
  3 - X - P <= Zpos (digits2_pos m) + e - P <= X - P ->
  exists M E,
    binary_round P X s m e = S754_finite s M E /\
    E = Zpos (digits2_pos m) + e - P /\
    Zpos (digits2_pos M) = P /\
    Zpos M = Zpos m * 2 ^ (e - E).
Proof.
  intros Hd He.
  unfold binary_round, shl_align, fexp, emin.
  replace (Z.max (Zpos (digits2_pos m) + e - P) (3 - X - P))
    with (Zpos (digits2_pos m) + e - P) by lia.
  destruct (Zpos (digits2_pos m) + e - P - e) as [| k | k] eqn:Hk.
  - exists m, e. split; [| split; [| split]].
    + apply binary_round_aux_exact_gen; lia.
    + lia.
    + lia.
    + rewrite Z.sub_diag. simpl. lia.
  - lia.
  - exists (Pos.iter xO m k), (Zpos (digits2_pos m) + e - P).
    split; [| split; [| split]].
    + apply binary_round_aux_exact_gen; [| lia].
      rewrite iter_xO_digits. lia.
    + reflexivity.
    + rewrite iter_xO_digits. lia.
    + rewrite iter_xO_value. f_equal. f_equal. lia.
Qed.

Lemma trunc_binary_normalize_gen s n :
  0 <= n < 2 ^ P ->
  trunc (binary_normalize P X (cond_Zopp s n) 0 s) = Some (cond_Zopp s n).
Proof.
  intros Hn. destruct n as [| p | p]; [| | lia].
  - destruct s; reflexivity.
  - assert (binary_normalize P X (cond_Zopp s (Zpos p)) 0 s
            = binary_round P X s p 0) as -> by (destruct s; reflexivity).
    pose proof (digits2_pos_le p P ltac:(lia) ltac:(lia)) as Hd.
    assert (0 < Zpos (digits2_pos p)) as Hd0 by lia.
    destruct (binary_round_shift s p 0 Hd ltac:(lia))
      as (M & E & -> & HE & _ & HM).
    unfold trunc. f_equal. f_equal.
    destruct (0 <=? E) eqn:H0.
    + assert (E = 0) as -> by lia. rewrite HM. simpl. lia.
    + rewrite HM. replace (0 - E) with (- E) by lia. apply Z.div_mul.
      assert (0 < 2 ^ (- E)) by (apply Z.pow_pos_nonneg; lia). lia.
Qed.
End Normalisation.

Lemma rne_div_scale m d c :
  0 < d -> 0 < c -> rne_div (m * c) (d * c) = rne_div m d.
Proof.
  intros Hd Hc. unfold rne_div.
  rewrite Z.div_mul_cancel_r, Z.mul_mod_distr_r by lia.
  rewrite Z.mul_assoc.
  rewrite <- (Zmult_compare_compat_r (2 * (m mod d)) d c) by lia.
  reflexivity.
Qed.

Lemma valid_binary_finite s m e :
  valid_binary prec emax (S754_finite s m e) = true ->
  Zpos m < 2 ^ 24 /\ -149 <= e <= 104.
Proof.
  unfold valid_binary, bounded, canonical_mantissa, fexp, emin, prec, emax.
  intros [Hc He]%andb_true_iff.
  apply Z.eqb_eq in Hc. apply Z.leb_le in He.
  pose proof (digits2_pos_gt m) as Hm.
  assert (Zpos (digits2_pos m) <= 24) as Hd by lia.
  assert (2 ^ Zpos (digits2_pos m) <= 2 ^ 24)
    by (apply Z.pow_le_mono_r; lia).
  lia.
Qed.

(** Promoted to [double] and rounded there, a binary32 value gives the
    integer that [Round] gives on the [float]. *)
Lemma trunc_Round_double_of_float x :
  valid_binary prec emax x = true ->
  trunc (Round_double (F64.of_float x)) = trunc (Round x).
Proof.
  destruct x as [s | s | | s m e]; try reflexivity.
  intros [Hm He]%valid_binary_finite.
  pose proof (digits2_pos_le m 24 ltac:(lia) Hm) as Hd.
  assert (0 < Zpos (digits2_pos m)) as Hd0 by lia.
  destruct (binary_round_shift 53 1024 s m e ltac:(lia) ltac:(lia))
    as (M & E & Hr & HE & HdM & HM).
  unfold Round_double, F64.of_float, F64.prec, F64.emax. rewrite Hr.
  assert (0 < 2 ^ (e - E)) as Hc by (apply Z.pow_pos_nonneg; lia).
  assert (Zpos M < 2 ^ 53) as HM53
    by (rewrite <- HdM; apply digits2_pos_gt).
  unfold F64.nearbyint, F64.prec, F64.emax.
  destruct (0 <=? E) eqn:H0.
  - unfold Round, nearbyint.
    destruct (0 <=? e) eqn:H0e; [| lia].
    cbn [trunc]. rewrite H0, H0e. f_equal. f_equal.
    rewrite HM, <- Z.mul_assoc, <- Z.pow_add_r by lia.
    f_equal. f_equal. lia.
  - assert (0 < 2 ^ (- E)) as HdE by (apply Z.pow_pos_nonneg; lia).
    destruct (0 <=? e) eqn:H0e.
    + assert (Zpos M = (Zpos m * 2 ^ e) * 2 ^ (- E)) as HM'.
      { rewrite HM, <- Z.mul_assoc, <- Z.pow_add_r by lia.
        repeat f_equal; lia. }
      rewrite HM', rne_div_exact by exact HdE.
      assert (0 <= Zpos m * 2 ^ e < 2 ^ 53) as Hb.
      { assert (0 <= Zpos m * 2 ^ e)
          by (apply Z.mul_nonneg_nonneg; [lia | apply Z.pow_nonneg; lia]).
        nia. }
      rewrite (trunc_binary_normalize_gen 53 1024
                 ltac:(lia) ltac:(lia) ltac:(lia) s _ Hb).
      unfold Round, nearbyint. rewrite H0e. cbn [trunc]. rewrite H0e.
      reflexivity.
    + assert (2 ^ (- E) = 2 ^ (- e) * 2 ^ (e - E)) as HdE'.
      { rewrite <- Z.pow_add_r by lia. repeat f_equal; lia. }
      rewrite HM, HdE', rne_div_scale
        by (try apply Z.pow_pos_nonneg; lia).
      pose proof (rne_div_below m e ltac:(lia) Hm) as Hn.
      assert (0 <= rne_div (Zpos m) (2 ^ (- e)) < 2 ^ 53) as Hb.
      { assert (2 ^ 24 <= 2 ^ 53) by (apply Z.pow_le_mono_r; lia). lia. }
      rewrite (trunc_binary_normalize_gen 53 1024
                 ltac:(lia) ltac:(lia) ltac:(lia) s _ Hb).
      symmetry. apply trunc_Round_finite; lia.
Qed.

(** X12: the Android variant of [Round] (the [double] overload, reached
    through the promotion of the quotient) makes [QuantizeUint8] return
    what the generic variant returns, whenever the quotient is a binary32
    value. *)
Theorem QuantizeUint8_android_agrees scale zero_point value :
  valid_binary prec emax (fdiv value scale) = true ->
  QuantizeUint8_android scale zero_point value
  = QuantizeUint8 scale zero_point value.
Proof.
  intros Hv. unfold QuantizeUint8_android, QuantizeUint8, static_cast_int32.
  rewrite (trunc_Round_double_of_float _ Hv). reflexivity.
Qed.

Lemma QuantizeUint8_android_agrees_witness :
  valid_binary prec emax (fdiv f2_5 f0_1) = true /\
  QuantizeUint8_android f0_1 10 f2_5 = Ok 35.
Proof.
  split; [reflexivity |].
  rewrite (QuantizeUint8_android_agrees f0_1 10 f2_5 eq_refl).
  reflexivity.
Defined.

Example Round_double_samples :
  F64.of_float f2_5 = S754_finite false 5629499534213120 (-51) /\
  Round_double (F64.of_float f2_5) = S754_finite false 4503599627370496 (-51) /\
  Round_double (F64.of_float f0_5) = S754_zero false /\
  QuantizeUint8_android f1_0 0 f1_5 = Ok 2 /\
  QuantizeUint8_android f1_0 255 f2147483520 = Ok 0 /\
  QuantizeUint8_android f1_0 0 f4294967296 = Undefined.
Proof. vm_compute. repeat split. Qed.
